(** * Calculadora_GOLANG: the expression pipeline of [Calculator.go]

    A shallow embedding of the lexer ([tokenize]), the shunting-yard parser
    ([shuntingYard]) and the postfix evaluator ([evalRPN]) of the
    command-line calculator, followed by the properties they satisfy.

    Conventions of the embedding:
    - a Go [string] is a sequence of bytes: [string] for token payloads,
      [list ascii] while a text is being scanned;
    - a [float64] is a primitive binary64 float ([PrimFloat.float]); [+], [-],
      [*], [/], unary minus, [math.Sqrt], [math.Abs] and the comparisons are
      the IEEE 754 operations of [PrimFloat];
    - the remaining functions of Go's [math] package are the fields of the
      interface [GoMath];
    - a function returning [(T, error)] returns a [result T]; a run-time
      panic is the third outcome [Panic];
    - a slice used as a stack ([stack] in [shuntingYard], [st] in [evalRPN])
      is a list whose head is the top of the stack; [toks] and [output],
      which are only appended to, are lists in source order. *)

From Stdlib Require Import ZArith List String Ascii Floats Lia Bool FunInd.
From Stdlib Require Import Permutation.
Import ListNotations.

Local Open Scope Z_scope.
Local Open Scope bool_scope.

(** ** Tokens (lines 20-35) *)

Inductive tokenType : Set :=
| tNumber | tOp | tLParen | tRParen | tFunc | tComma | tIdent.

Record token : Set := Token { typ : tokenType; val : string }.

Definition tokenType_eqb (a b : tokenType) : bool :=
  match a, b with
  | tNumber, tNumber | tOp, tOp | tLParen, tLParen | tRParen, tRParen
  | tFunc, tFunc | tComma, tComma | tIdent, tIdent => true
  | _, _ => false
  end.

(** ** Errors and outcomes *)

(** The two causes carried by a [*strconv.NumError]. *)
Inductive numError : Set := ErrSyntax | ErrRange.

(** One constructor per error value built in [Calculator.go], with the data
    its message is formatted from. *)
Inductive error : Set :=
| ErrUnknownIdent (id : string)      (* "identificador desconhecido: %s" *)
| ErrInvalidChar (ch : ascii)        (* "caractere inválido: %q" *)
| ErrCommaOutside                    (* "vírgula fora de função" *)
| ErrUnbalanced                      (* "parênteses desbalanceados" *)
| ErrUnsupportedFunc (name : string) (* "função não suportada: %s" *)
| ErrParseFloat (num : string) (e : numError) (* the error of strconv.ParseFloat *)
| ErrUnaryNoOperand                  (* "operador unário sem operando" *)
| ErrBinaryFewOperands               (* "operador binário com poucos operandos" *)
| ErrDivZero                         (* "divisão por zero" *)
| ErrFuncFewArgs (name : string)     (* "função %s com poucos argumentos" *)
| ErrSqrtNegative                    (* "sqrt de número negativo" *)
| ErrMaxArgs                         (* "max precisa de 2 argumentos" *)
| ErrMinArgs                         (* "min precisa de 2 argumentos" *)
| ErrInvalidExpr.                    (* "expressão inválida" *)

(** What a call does when it ends: a value with a nil error, a non-nil
    error, or a run-time panic (a call of a nil function value, an index
    out of range). *)
Inductive result (A : Type) : Type :=
| Ok (a : A)
| Err (e : error)
| Panic.

Arguments Ok {A} a.
Arguments Err {A} e.
Arguments Panic {A}.

Definition bind {A B : Type} (r : result A) (k : A -> result B) : result B :=
  match r with
  | Ok a => k a
  | Err e => Err e
  | Panic => Panic
  end.

Notation "x <- r ;; k" := (bind r (fun x => k))
  (at level 61, r at next level, right associativity).

(** A constant Go map literal, as the list of its entries. *)
Fixpoint lookup {A : Type} (key : string) (m : list (string * A)) : option A :=
  match m with
  | [] => None
  | (k, v) :: m' => if String.eqb key k then Some v else lookup key m'
  end.

(** ** Bytes and the [unicode] predicates

    [tokenize] reads [rune(s[i])]: one byte, taken as the code point of the
    same number, so the predicates are only ever asked about U+0000-U+00FF. *)

Definition code (c : ascii) : Z := Z.of_N (N_of_ascii c).

Definition between (lo hi : Z) (c : ascii) : bool :=
  (lo <=? code c) && (code c <=? hi).

(** [unicode.IsSpace] on Latin-1: '\t', '\n', '\v', '\f', '\r', ' ',
    U+0085 (NEL), U+00A0 (NBSP). *)
Definition IsSpace (c : ascii) : bool :=
  between 9 13 c || (code c =? 32) || (code c =? 133) || (code c =? 160).

(** [unicode.IsDigit] on Latin-1: '0'..'9'. *)
Definition IsDigit (c : ascii) : bool := between 48 57 c.

(** [unicode.IsLetter] on Latin-1: A-Z, a-z, U+00AA, U+00B5, U+00BA,
    U+00C0-U+00D6, U+00D8-U+00F6, U+00F8-U+00FF. *)
Definition IsLetter (c : ascii) : bool :=
  between 65 90 c || between 97 122 c
  || (code c =? 170) || (code c =? 181) || (code c =? 186)
  || between 192 214 c || between 216 246 c || between 248 255 c.

Definition isIdentStart (r : ascii) : bool := IsLetter r || Ascii.eqb r "_".
Definition isIdent (r : ascii) : bool :=
  IsLetter r || IsDigit r || Ascii.eqb r "_".

(** ** [strings.TrimSpace] and [strings.ToLower] *)

(** The white space that [strings.TrimSpace] removes is decoded as UTF-8:
    the six ASCII spaces, and the encodings of U+0085, U+00A0, U+1680,
    U+2000-U+200A, U+2028, U+2029, U+202F, U+205F and U+3000.  [spaceLen]
    is the number of bytes of the white-space rune encoded by the given
    bytes (first byte first), 0 when they encode none. *)
Definition spaceLen (b1 : Z) (b2 b3 : option Z) : nat :=
  if ((9 <=? b1) && (b1 <=? 13)) || (b1 =? 32) then 1%nat
  else match b2 with
  | None => 0%nat
  | Some b2 =>
    if (b1 =? 194) && ((b2 =? 133) || (b2 =? 160)) then 2%nat
    else match b3 with
    | None => 0%nat
    | Some b3 =>
      if ((b1 =? 225) && (b2 =? 154) && (b3 =? 128))
         || ((b1 =? 226) && (b2 =? 128)
             && (((128 <=? b3) && (b3 <=? 138))
                 || (b3 =? 168) || (b3 =? 169) || (b3 =? 175)))
         || ((b1 =? 226) && (b2 =? 129) && (b3 =? 159))
         || ((b1 =? 227) && (b2 =? 128) && (b3 =? 128))
      then 3%nat else 0%nat
    end
  end.

(** [strings.TrimLeftFunc(s, unicode.IsSpace)]. *)
Fixpoint trimLeft (s : list ascii) : list ascii :=
  match s with
  | [] => []
  | a :: s1 =>
    match s1 with
    | [] => match spaceLen (code a) None None with O => s | _ => [] end
    | b :: s2 =>
      match s2 with
      | [] =>
        match spaceLen (code a) (Some (code b)) None with
        | O => s
        | 1%nat => trimLeft s1
        | _ => []
        end
      | c :: s3 =>
        match spaceLen (code a) (Some (code b)) (Some (code c)) with
        | O => s
        | 1%nat => trimLeft s1
        | 2%nat => trimLeft s2
        | _ => trimLeft s3
        end
      end
    end
  end.

(** [strings.TrimRightFunc(s, unicode.IsSpace)], on the reversed text: the
    last rune is the white-space rune whose encoding ends the text. *)
Fixpoint trimRightRev (r : list ascii) : list ascii :=
  match r with
  | [] => []
  | a :: r1 =>
    if spaceLen (code a) None None =? 1 then trimRightRev r1 else
    match r1 with
    | [] => r
    | b :: r2 =>
      if (spaceLen (code b) (Some (code a)) None =? 2)%nat then trimRightRev r2 else
      match r2 with
      | [] => r
      | c :: r3 =>
        if (spaceLen (code c) (Some (code b)) (Some (code a)) =? 3)%nat
        then trimRightRev r3 else r
      end
    end
  end%nat.

Definition TrimSpace (s : list ascii) : list ascii :=
  rev (trimRightRev (rev (trimLeft s))).

Definition lowerByte (c : ascii) : ascii :=
  if between 65 90 c then ascii_of_N (N_of_ascii c + 32) else c.

(** [strings.ToLower], exact on ASCII text.  [tokenize] only compares the
    result with the ASCII keys of [functions] and [constants] and with
    ["ans"]; on an identifier holding a byte above 0x7F Go's result holds
    one too (no rune made of identifier bytes lowers to ASCII), as this
    one does, so every such comparison fails in both. *)
Definition ToLower (s : list ascii) : list ascii := map lowerByte s.

(** ** [strconv.ParseFloat(s, 64)]

    The decimal part of Go's numeral syntax: an optional sign, then
    ["inf"], ["infinity"] or (unsigned) ["nan"] in any case, or digits with
    at most one point and at least one digit, optionally followed by [e] or
    [E], an optional sign and at least one digit.  The value is the decimal
    number rounded to the nearest binary64, ties to even; a number that
    rounds to an infinity is reported as [ErrRange], one that rounds to
    zero is not an error.  Hexadecimal mantissas and digit-separating
    underscores, which Go also reads, need a byte ([x], [p], [_]) that
    [tokenize] never puts in a Number payload, and are left out. *)

Definition digitVal (c : ascii) : Z := code c - 48.

(** The mantissa loop of [readFloat]: the digits read so far as an integer
    [m], [nfrac] digits of them after the point. *)
Fixpoint readMantissa (s : list ascii) (sawdot sawdigits : bool) (m nfrac : Z)
  : bool * Z * Z * list ascii :=
  match s with
  | c :: s' =>
    if Ascii.eqb c "." then
      if sawdot then (sawdigits, m, nfrac, s)
      else readMantissa s' true sawdigits m nfrac
    else if IsDigit c then
      readMantissa s' sawdot true (10 * m + digitVal c)
                   (if sawdot then nfrac + 1 else nfrac)
    else (sawdigits, m, nfrac, s)
  | [] => (sawdigits, m, nfrac, s)
  end.

(** The exponent loop of [readFloat], with its cap on the exponent read. *)
Fixpoint readExpDigits (s : list ascii) (e : Z) : Z * list ascii :=
  match s with
  | c :: s' =>
    if IsDigit c
    then readExpDigits s' (if e <? 10000 then 10 * e + digitVal c else e)
    else (e, s)
  | [] => (e, s)
  end.

(** [readFloat] on an unsigned decimal numeral: the mantissa, the power of
    ten and the unread rest; [None] where Go's [ok] is false. *)
Definition readFloat (s : list ascii) : option (Z * Z * list ascii) :=
  let '(sawdigits, m, nfrac, rest) := readMantissa s false false 0 0 in
  if negb sawdigits then None else
  match rest with
  | c :: r1 =>
    if Ascii.eqb (lowerByte c) "e" then
      let r2 := match r1 with
                | sg :: r => if Ascii.eqb sg "+" || Ascii.eqb sg "-" then r else r1
                | [] => r1
                end in
      let esign : Z := match r1 with
                       | sg :: _ => if Ascii.eqb sg "-" then -1 else 1
                       | [] => 1
                       end in
      match r2 with
      | d :: _ =>
        if IsDigit d then
          let '(e, r3) := readExpDigits r2 0 in
          Some (m, esign * e - nfrac, r3)
        else None
      | [] => None
      end
    else Some (m, - nfrac, rest)
  | [] => Some (m, - nfrac, rest)
  end.

(** [m * 10^e] rounded to the nearest binary64, ties to even ([0 < m]). *)
Definition roundDecimal (neg : bool) (m e : Z) : spec_float :=
  if 0 <=? e then binary_normalize prec emax (if neg then - (m * 10 ^ e) else m * 10 ^ e) 0 neg
  else
    let d := 10 ^ (- e) in
    let k := Z.max 0 (Z.log2 d - Z.log2 m + 64) in
    let q := (m * 2 ^ k) / d in
    let r := (m * 2 ^ k) mod d in
    binary_round_aux prec emax neg q (- k)
      (if r =? 0 then loc_Exact else loc_Inexact (Z.compare (2 * r) d)).

Definition atof64 (neg : bool) (m e : Z) : float :=
  if m =? 0 then (if neg then neg_zero else zero)
  else SF2Prim (roundDecimal neg m e).

(** [special]: the length-3 or length-8 prefix test on ["infinity"]. *)
Definition isInfinityWord (s : list ascii) : bool :=
  let low := string_of_list_ascii (map lowerByte s) in
  String.eqb low "inf" || String.eqb low "infinity".

Definition ParseFloat (str : string) : result float :=
  let s := list_ascii_of_string str in
  let neg := match s with c :: _ => Ascii.eqb c "-" | [] => false end in
  let body := match s with
              | c :: s' => if Ascii.eqb c "+" || Ascii.eqb c "-" then s' else s
              | [] => s
              end in
  if isInfinityWord body then Ok (if neg then neg_infinity else infinity)
  else if String.eqb (string_of_list_ascii (map lowerByte s)) "nan" then Ok nan
  else match readFloat body with
  | Some (m, e, []) =>
    let f := atof64 neg m e in
    if is_infinity f then Err (ErrParseFloat str ErrRange) else Ok f
  | _ => Err (ErrParseFloat str ErrSyntax)
  end.

(** ** The [math] package

    [math.Sqrt] and [math.Abs] are IEEE 754 operations and are taken from
    [PrimFloat]; the functions below have no such definition and are the
    interface the calculator is written against. *)
Class GoMath : Type := {
  math_Sin : float -> float;
  math_Cos : float -> float;
  math_Tan : float -> float;
  math_Log10 : float -> float;
  math_Log : float -> float;
  math_Floor : float -> float;
  math_Ceil : float -> float;
  math_Round : float -> float;
  math_Pow : float -> float -> float
}.

(** [math.Pi] and [math.E] as [float64] values. *)
Definition math_Pi : float := 0x1.921fb54442d18p+1%float.
Definition math_E : float := 0x1.5bf0a8b145769p+1%float.

Section Calculator.

Context {M : GoMath}.

(** ** The tables (lines 37-91) *)

Record opInfo : Type := OpInfo {
  prec : Z;
  rightAssoc : bool;
  unary : bool;
  fn : option (float -> float -> float)
}.

Definition ops : list (string * opInfo) :=
  [ ("+",  OpInfo 1 false false (Some (fun a b => a + b)%float));
    ("-",  OpInfo 1 false false (Some (fun a b => a - b)%float));
    ("*",  OpInfo 2 false false (Some (fun a b => a * b)%float));
    ("/",  OpInfo 2 false false (Some (fun a b => a / b)%float));
    ("^",  OpInfo 3 true false (Some (fun a b => math_Pow a b)));
    ("u-", OpInfo 4 true true (Some (fun _ b => - b)%float));
    ("u+", OpInfo 4 true true (Some (fun _ b => b))) ]%string.

(** [ops[key]]: the entry, or the zero value of the struct for a key that
    is not in the map (its [fn] is nil). *)
Definition opsAt (key : string) : opInfo :=
  match lookup key ops with
  | Some d => d
  | None => OpInfo 0 false false None
  end.

(** [a[i]] on the arguments of a variadic function. *)
Definition index (a : list float) (i : nat) : result float :=
  match nth_error a i with
  | Some x => Ok x
  | None => Panic
  end.

Definition unaryFn (f : float -> float) (a : list float) : result float :=
  x <- index a 0 ;; Ok (f x).

Definition functions : list (string * (list float -> result float)) :=
  [ ("sin", unaryFn math_Sin);
    ("cos", unaryFn math_Cos);
    ("tan", unaryFn math_Tan);
    ("sqrt", fun a =>
       x <- index a 0 ;;
       if (x <? 0)%float then Err ErrSqrtNegative else Ok (PrimFloat.sqrt x));
    ("log", unaryFn math_Log10);
    ("ln", unaryFn math_Log);
    ("abs", unaryFn PrimFloat.abs);
    ("floor", unaryFn math_Floor);
    ("ceil", unaryFn math_Ceil);
    ("round", unaryFn math_Round);
    ("max", fun a =>
       if (List.length a <? 2)%nat then Err ErrMaxArgs else
       a0 <- index a 0 ;; a1 <- index a 1 ;;
       if (a1 <? a0)%float then Ok a0 else Ok a1);
    ("min", fun a =>
       if (List.length a <? 2)%nat then Err ErrMinArgs else
       a0 <- index a 0 ;; a1 <- index a 1 ;;
       if (a0 <? a1)%float then Ok a0 else Ok a1) ]%string.

Definition constants : list (string * float) :=
  [ ("pi", math_Pi); ("e", math_E) ]%string.

Definition hasKey {A : Type} (key : string) (m : list (string * A)) : bool :=
  match lookup key m with Some _ => true | None => false end.

(** ** The lexer (lines 96-181) *)

(** The inner loop of the numeral case (lines 110-123), from [s[j:]]: the
    bytes it steps over, and the text left at the final [j]. *)
Fixpoint scanNumber (hasE : bool) (s : list ascii) : list ascii * list ascii :=
  match s with
  | [] => ([], [])
  | r :: s' =>
    if IsDigit r || Ascii.eqb r "." then
      let (num, rest) := scanNumber hasE s' in (r :: num, rest)
    else if (Ascii.eqb r "e" || Ascii.eqb r "E") && negb hasE then
      match s' with
      | sg :: s'' =>
        if Ascii.eqb sg "+" || Ascii.eqb sg "-"
        then let (num, rest) := scanNumber true s'' in (r :: sg :: num, rest)
        else let (num, rest) := scanNumber true s' in (r :: num, rest)
      | [] => ([r], [])
      end
    else ([], s)
  end.

(** The inner loop of the identifier case (lines 161-163). *)
Fixpoint scanIdent (s : list ascii) : list ascii * list ascii :=
  match s with
  | [] => ([], [])
  | r :: s' =>
    if isIdent r then let (id, rest) := scanIdent s' in (r :: id, rest)
    else ([], s)
  end.

(** The main loop (lines 101-179) from [s[i:]], with the loop's variables
    [prevType] and [toks].  Every turn leaves a shorter text, so [fuel]
    bounds the turns; [None] is a loop cut short by [fuel]. *)
Fixpoint tokenizeLoop (fuel : nat) (s : list ascii) (prevType : tokenType)
    (toks : list token) : option (result (list token)) :=
  match s with
  | [] => Some (Ok toks)
  | ch :: s' =>
    match fuel with
    | O => None
    | S fuel' =>
      if IsSpace ch then tokenizeLoop fuel' s' prevType toks
      else if IsDigit ch || Ascii.eqb ch "." then
        let (num, rest) := scanNumber false s' in
        tokenizeLoop fuel' rest tNumber
          (toks ++ [Token tNumber (string_of_list_ascii (ch :: num))])
      else if Ascii.eqb ch "+" || Ascii.eqb ch "-" then
        let op :=
          if tokenType_eqb prevType tOp || tokenType_eqb prevType tLParen
             || (List.length toks =? 0)%nat
          then (if Ascii.eqb ch "-" then "u-" else "u+")%string
          else String ch EmptyString in
        tokenizeLoop fuel' s' tOp (toks ++ [Token tOp op])
      else if Ascii.eqb ch "*" || Ascii.eqb ch "/" || Ascii.eqb ch "^" then
        tokenizeLoop fuel' s' tOp (toks ++ [Token tOp (String ch EmptyString)])
      else if Ascii.eqb ch "(" then
        tokenizeLoop fuel' s' tLParen (toks ++ [Token tLParen "("])
      else if Ascii.eqb ch ")" then
        tokenizeLoop fuel' s' tRParen (toks ++ [Token tRParen ")"])
      else if Ascii.eqb ch "," then
        tokenizeLoop fuel' s' tComma (toks ++ [Token tComma ","])
      else if isIdentStart ch then
        let (id', rest) := scanIdent s' in
        let id := ch :: id' in
        let low := string_of_list_ascii (ToLower id) in
        if hasKey low functions then
          tokenizeLoop fuel' rest tIdent (toks ++ [Token tFunc low])
        else if hasKey low constants || String.eqb low "ans" then
          tokenizeLoop fuel' rest tIdent (toks ++ [Token tIdent low])
        else Some (Err (ErrUnknownIdent (string_of_list_ascii id)))
      else Some (Err (ErrInvalidChar ch))
    end
  end.

Definition tokenize (input : string) : result (list token) :=
  let s := TrimSpace (list_ascii_of_string input) in
  match tokenizeLoop (List.length s) s tOp [] with
  | Some r => r
  | None => Panic
  end.

(** ** The parser (lines 183-249) *)

Definition arity : list (string * Z) :=
  [ ("sin", 1); ("cos", 1); ("tan", 1); ("sqrt", 1); ("log", 1); ("ln", 1);
    ("abs", 1); ("floor", 1); ("ceil", 1); ("round", 1); ("max", 2);
    ("min", 2) ]%string.

(** The loops of lines 197-200 and 220-223: move the stack to the output
    down to the first left parenthesis. *)
Fixpoint popToLParen (output stack : list token) : list token * list token :=
  match stack with
  | top :: stack' =>
    if tokenType_eqb (typ top) tLParen then (output, stack)
    else popToLParen (output ++ [top]) stack'
  | [] => (output, [])
  end.

(** The test of lines 208-209. *)
Definition yields (top curr : string) : bool :=
  (prec (opsAt curr) <? prec (opsAt top))
  || ((prec (opsAt top) =? prec (opsAt curr)) && negb (rightAssoc (opsAt curr))).

(** The loop of lines 205-215. *)
Fixpoint popOps (curr : string) (output stack : list token)
  : list token * list token :=
  match stack with
  | top :: stack' =>
    if tokenType_eqb (typ top) tOp && yields (val top) curr
    then popOps curr (output ++ [top]) stack'
    else (output, stack)
  | [] => (output, [])
  end.

(** One turn of the loop of lines 190-233. *)
Definition shuntStep (t : token) (output stack : list token)
  : result (list token * list token) :=
  match typ t with
  | tNumber | tIdent => Ok (output ++ [t], stack)
  | tFunc => Ok (output, t :: stack)
  | tComma =>
    let (output', stack') := popToLParen output stack in
    match stack' with
    | [] => Err ErrCommaOutside
    | _ :: _ => Ok (output', stack')
    end
  | tOp =>
    let (output', stack') := popOps (val t) output stack in
    Ok (output', t :: stack')
  | tLParen => Ok (output, t :: stack)
  | tRParen =>
    let (output', stack') := popToLParen output stack in
    match stack' with
    | [] => Err ErrUnbalanced
    | _ :: stack'' =>
      match stack'' with
      | top :: stack3 =>
        if tokenType_eqb (typ top) tFunc then Ok (output' ++ [top], stack3)
        else Ok (output', stack'')
      | [] => Ok (output', stack'')
      end
    end
  end.

Fixpoint shuntLoop (toks output stack : list token)
  : result (list token * list token) :=
  match toks with
  | [] => Ok (output, stack)
  | t :: toks' =>
    st <- shuntStep t output stack ;;
    shuntLoop toks' (fst st) (snd st)
  end.

(** The loop of lines 234-240. *)
Fixpoint drain (output stack : list token) : result (list token) :=
  match stack with
  | [] => Ok output
  | top :: stack' =>
    if tokenType_eqb (typ top) tLParen then Err ErrUnbalanced
    else drain (output ++ [top]) stack'
  end.

(** The loop of lines 241-247. *)
Fixpoint checkFuncs (output : list token) : result unit :=
  match output with
  | [] => Ok tt
  | t :: output' =>
    if tokenType_eqb (typ t) tFunc && negb (hasKey (val t) arity)
    then Err (ErrUnsupportedFunc (val t))
    else checkFuncs output'
  end.

Definition shuntingYard (toks : list token) : result (list token) :=
  st <- shuntLoop toks [] [] ;;
  output <- drain (fst st) (snd st) ;;
  _ <- checkFuncs output ;;
  Ok output.

(** ** The evaluator (lines 251-316) *)

(** A call of a function value that may be nil. *)
Definition call (f : option (float -> float -> float)) (a b : float)
  : result float :=
  match f with
  | Some f => Ok (f a b)
  | None => Panic
  end.

(** One turn of the loop of lines 253-311, on the operand stack [st]. *)
Definition evalStep (lastAns : float) (t : token) (st : list float)
  : result (list float) :=
  match typ t with
  | tNumber =>
    v <- ParseFloat (val t) ;; Ok (v :: st)
  | tIdent =>
    if String.eqb (val t) "ans" then Ok (lastAns :: st)
    else match lookup (val t) constants with
         | Some c => Ok (c :: st)
         | None => Err (ErrUnknownIdent (val t))
         end
  | tOp =>
    if unary (opsAt (val t)) then
      match st with
      | b :: st' =>
        res <- call (fn (opsAt (val t))) 0%float b ;; Ok (res :: st')
      | [] => Err ErrUnaryNoOperand
      end
    else
      match st with
      | b :: a :: st' =>
        if String.eqb (val t) "/" && (b =? 0)%float then Err ErrDivZero
        else res <- call (fn (opsAt (val t))) a b ;; Ok (res :: st')
      | _ => Err ErrBinaryFewOperands
      end
  | tFunc =>
    let nargs :=
      if String.eqb (val t) "max" || String.eqb (val t) "min"
      then 2%nat else 1%nat in
    if (List.length st <? nargs)%nat then Err (ErrFuncFewArgs (val t))
    else
      let args := rev (firstn nargs st) in
      let st' := skipn nargs st in
      match lookup (val t) functions with
      | Some fn => res <- fn args ;; Ok (res :: st')
      | None => Panic
      end
  | tLParen | tRParen | tComma => Ok st
  end.

Fixpoint evalLoop (lastAns : float) (rpn : list token) (st : list float)
  : result (list float) :=
  match rpn with
  | [] => Ok st
  | t :: rpn' => st' <- evalStep lastAns t st ;; evalLoop lastAns rpn' st'
  end.

Definition evalRPN (rpn : list token) (lastAns : float) : result float :=
  st <- evalLoop lastAns rpn [] ;;
  match st with
  | [v] => Ok v
  | _ => Err ErrInvalidExpr
  end.

(** Lines 318-328. *)
Definition evalExpr (expr : string) (lastAns : float) : result float :=
  toks <- tokenize expr ;;
  rpn <- shuntingYard toks ;;
  evalRPN rpn lastAns.

End Calculator.

(** ** A small instance of [GoMath]

    Each function where its value is exact and documented by Go: the
    special cases of [math.Log], [math.Log10], [math.Sin], [math.Cos] and
    [math.Tan], the rounding functions on integral arguments, and
    [math.Pow] on a natural exponent whose power is computed without
    rounding.  Elsewhere it answers NaN: it is not Go's library, and serves
    to run the calculator on examples and to show that what the theorems
    below assume of [math] can be met. *)

(** The natural number a float is, when it is one. *)
Definition toNat (y : float) : option nat :=
  match Prim2SF y with
  | S754_zero _ => Some O
  | S754_finite false m e =>
    if 0 <=? e then Some (Z.to_nat (Zpos m * 2 ^ e))
    else if (Zpos m) mod 2 ^ (- e) =? 0
         then Some (Z.to_nat (Zpos m / 2 ^ (- e)))
         else None
  | _ => None
  end.

Definition isIntegral (x : float) : bool :=
  match toNat (PrimFloat.abs x) with Some _ => true | None => false end.

Definition onIntegral (x : float) : float := if isIntegral x then x else nan.

Definition powNat (x y : float) : float :=
  match toNat y with
  | Some n => Nat.iter n (fun a => a * x)%float 1%float
  | None => nan
  end.

Definition logSpecial (x : float) : float :=
  if (x <? 0)%float then nan
  else if (x =? 0)%float then neg_infinity
  else if (x =? 1)%float then 0%float
  else if (x =? infinity)%float then infinity
  else nan.

Definition atZero (v : float) (x : float) : float :=
  if (x =? 0)%float then v else nan.

Definition exactMath : GoMath := {|
  math_Sin := fun x => atZero x x;
  math_Cos := atZero 1%float;
  math_Tan := fun x => atZero x x;
  math_Log10 := logSpecial;
  math_Log := logSpecial;
  math_Floor := onIntegral;
  math_Ceil := onIntegral;
  math_Round := onIntegral;
  math_Pow := powNat
|}.

(** ** Expressions of numerals and binary operators

    The reading of an infix text that the pipeline is compared with: a tree
    of binary operators over numerals, its text, and its value.  None of it
    is taken from [Calculator.go]. *)

Inductive binop : Set := Add | Sub | Mul | Div | Pow.

Inductive expr : Set :=
| Num (n : list ascii)
| Bin (o : binop) (l r : expr).

Definition symbol (o : binop) : ascii :=
  match o with
  | Add => "+" | Sub => "-" | Mul => "*" | Div => "/" | Pow => "^"
  end%char.

(** The usual levels: [+ -] below [* /] below [^]. *)
Definition level (o : binop) : Z :=
  match o with
  | Add | Sub => 1
  | Mul | Div => 2
  | Pow => 3
  end.

(** [^] groups to the right, the others to the left. *)
Definition groupsRight (o : binop) : bool :=
  match o with Pow => true | _ => false end.

(** The lowest level an operator may have at the root of the left and of
    the right operand of [o] without parentheses. *)
Definition leftBound (o : binop) : Z :=
  if groupsRight o then level o + 1 else level o.
Definition rightBound (o : binop) : Z :=
  if groupsRight o then level o else level o + 1.

(** [fits m t]: written without parentheses, [t] reads back as itself
    where an operand of level [m] or more is expected. *)
Fixpoint fits (m : Z) (t : expr) : bool :=
  match t with
  | Num _ => true
  | Bin o l r =>
    (m <=? level o) && fits (leftBound o) l && fits (rightBound o) r
  end.

(** The infix text of a tree. *)
Fixpoint text (t : expr) : list ascii :=
  match t with
  | Num n => n
  | Bin o l r => text l ++ symbol o :: text r
  end.

(** Numerals: one or more digits, optionally a point and further digits,
    optionally an exponent ([e] or [E], an optional sign, one or more
    digits). *)
Fixpoint dropDigits (s : list ascii) : list ascii :=
  match s with
  | c :: s' => if IsDigit c then dropDigits s' else s
  | [] => []
  end.

Definition isExponent (x : list ascii) : bool :=
  match x with
  | m :: x1 =>
    (Ascii.eqb m "e" || Ascii.eqb m "E")
    && let d := match x1 with
                | sg :: x2 =>
                  if Ascii.eqb sg "+" || Ascii.eqb sg "-" then x2 else x1
                | [] => []
                end in
       match d with
       | c :: _ => IsDigit c && match dropDigits d with [] => true | _ => false end
       | [] => false
       end
  | [] => false
  end.

Definition isNumeral (n : list ascii) : bool :=
  match n with
  | c :: _ =>
    IsDigit c
    && let r1 := dropDigits n in
       let r2 := match r1 with
                 | p :: r => if Ascii.eqb p "." then dropDigits r else r1
                 | [] => []
                 end in
       match r2 with
       | [] => true
       | _ :: _ => isExponent r2
       end
  | [] => false
  end.

Fixpoint numerals (t : expr) : bool :=
  match t with
  | Num n => isNumeral n
  | Bin _ l r => numerals l && numerals r
  end.

Section Arithmetic.

Context {M : GoMath}.

(** The value of [a o b]; a division by zero has none. *)
Definition applyOp (o : binop) (a b : float) : result float :=
  match o with
  | Add => Ok (a + b)%float
  | Sub => Ok (a - b)%float
  | Mul => Ok (a * b)%float
  | Div => if (b =? 0)%float then Err ErrDivZero else Ok (a / b)%float
  | Pow => Ok (math_Pow a b)
  end.

(** The value of a tree: its operands from left to right, then its
    operator. *)
Fixpoint evalTree (t : expr) : result float :=
  match t with
  | Num n => ParseFloat (string_of_list_ascii n)
  | Bin o l r =>
    a <- evalTree l ;; b <- evalTree r ;; applyOp o a b
  end.

End Arithmetic.

(** The tokens of the text of a tree, and its postfix form. *)
Definition opToken (o : binop) : token :=
  Token tOp (String (symbol o) EmptyString).

Fixpoint infix (t : expr) : list token :=
  match t with
  | Num n => [Token tNumber (string_of_list_ascii n)]
  | Bin o l r => infix l ++ opToken o :: infix r
  end.

Fixpoint postfix (t : expr) : list token :=
  match t with
  | Num n => [Token tNumber (string_of_list_ascii n)]
  | Bin o l r => postfix l ++ postfix r ++ [opToken o]
  end.

(** Attaching [o n] at the right end of the text of a tree: the tree of
    the longer text. *)
Fixpoint attach (t : expr) (o : binop) (n : list ascii) : expr :=
  match t with
  | Bin o' l r =>
    if rightBound o' <=? level o then Bin o' l (attach r o n)
    else Bin o t (Num n)
  | Num _ => Bin o t (Num n)
  end.

(** The tree of [n0 o1 n1 ... ok nk]. *)
Definition treeOf (n0 : list ascii) (rest : list (binop * list ascii)) : expr :=
  fold_left (fun t p => attach t (fst p) (snd p)) rest (Num n0).

Definition flatText (n0 : list ascii) (rest : list (binop * list ascii))
  : list ascii :=
  n0 ++ flat_map (fun p => symbol (fst p) :: snd p) rest.

(** The operator on top of the stack binds no tighter than level [m]
    allows: an operator of level [m] or more does not move it. *)
Definition stackBelow (m : Z) (stack : list token) : Prop :=
  match stack with
  | [] => True
  | top :: _ => exists s, top = opToken s /\ rightBound s <= m
  end.

(** The tokens left to read are none, or start with an operator that moves
    every stacked operator of level [m] or more to the output. *)
Definition closedBy (m : Z) (rest : list token) : Prop :=
  match rest with
  | [] => True
  | t :: _ => exists o, t = opToken o /\ leftBound o <= m
  end.

(** The text left to read is none, or starts with an operator symbol. *)
Definition atOperator (rest : list ascii) : Prop :=
  match rest with
  | [] => True
  | c :: _ => exists o, c = symbol o
  end.

(** A printable ASCII byte other than the space. *)
Definition plain (c : ascii) : bool := between 33 126 c.

(** ** Sign tokens *)






Definition lastToken (toks : list token) : option token :=
  match rev toks with
  | t :: _ => Some t
  | [] => None
  end.


(** ** The shape of a Number payload *)

Definition isMarker (c : ascii) : bool := Ascii.eqb c "e" || Ascii.eqb c "E".
Definition isSignByte (c : ascii) : bool := Ascii.eqb c "+" || Ascii.eqb c "-".
Definition isPointOrDigit (c : ascii) : bool := IsDigit c || Ascii.eqb c ".".

(** Every sign of [s] comes directly after an exponent marker ([prev] is
    the byte before [s]). *)
Fixpoint signsFollowMarker (prev : ascii) (s : list ascii) : bool :=
  match s with
  | [] => true
  | c :: s' =>
    (if isSignByte c then isMarker prev else true) && signsFollowMarker c s'
  end.

(** A digit or a point, then digits, points, exponent markers and signs,
    with at most one marker and signs only directly after it. *)
Definition numberShape (payload : string) : bool :=
  match list_ascii_of_string payload with
  | c :: body =>
    isPointOrDigit c
    && forallb (fun b => isPointOrDigit b || isMarker b || isSignByte b) body
    && (List.length (filter isMarker body) <=? 1)%nat
    && signsFollowMarker c body
  | [] => false
  end.

(** The number of arguments a function name stands for: 2 for [max] and
    [min], 1 otherwise. *)
Definition requiredArity (name : string) : nat :=
  if String.eqb name "max" || String.eqb name "min" then 2%nat else 1%nat.

(** ** The lexer as a transition system

    [emitted prevType toks t prevType']: in the state [prevType], [toks] one
    turn of the main loop of [tokenize] may append [t] and leave
    [prevType']. *)
Inductive emitted (prevType : tokenType) (toks : list token)
  : token -> tokenType -> Prop :=
| emit_number (ch : ascii) (s : list ascii) :
    isPointOrDigit ch = true ->
    emitted prevType toks
      (Token tNumber (string_of_list_ascii (ch :: fst (scanNumber false s))))
      tNumber
| emit_sign (ch : ascii) :
    isSignByte ch = true ->
    emitted prevType toks
      (Token tOp
         (if tokenType_eqb prevType tOp || tokenType_eqb prevType tLParen
             || (List.length toks =? 0)%nat
          then (if Ascii.eqb ch "-" then "u-" else "u+")%string
          else String ch EmptyString))
      tOp
| emit_op (ch : ascii) :
    Ascii.eqb ch "*" || Ascii.eqb ch "/" || Ascii.eqb ch "^" = true ->
    emitted prevType toks (Token tOp (String ch EmptyString)) tOp
| emit_lparen : emitted prevType toks (Token tLParen "(") tLParen
| emit_rparen : emitted prevType toks (Token tRParen ")") tRParen
| emit_comma : emitted prevType toks (Token tComma ",") tComma
| emit_func (low : string) : emitted prevType toks (Token tFunc low) tIdent
| emit_ident (low : string) : emitted prevType toks (Token tIdent low) tIdent.

(** The states a run of the loop goes through. *)
Inductive produces (prevType : tokenType) (toks : list token)
  : tokenType -> list token -> Prop :=
| produces_done : produces prevType toks prevType toks
| produces_step t p1 p' r :
    emitted prevType toks t p1 ->
    produces p1 (toks ++ [t]) p' r ->
    produces prevType toks p' r.

Functional Scheme scanNumber_ind := Induction for scanNumber Sort Prop.
Functional Scheme scanIdent_ind := Induction for scanIdent Sort Prop.

(** ** What the lexer hands on *)

(** All 256 bytes. *)
Definition allBytes : list ascii := map ascii_of_nat (seq 0 256).

Section Tokens.

Context {M : GoMath}.

(** A token as [tokenize] builds them: a payload that fits its type. *)
Definition tokenOk (t : token) : bool :=
  match typ t with
  | tNumber => numberShape (val t)
  | tOp => hasKey (val t) ops
  | tLParen => String.eqb (val t) "("
  | tRParen => String.eqb (val t) ")"
  | tComma => String.eqb (val t) ","
  | tFunc => hasKey (val t) functions && hasKey (val t) arity
  | tIdent => hasKey (val t) constants || String.eqb (val t) "ans"
  end.

(** The identifiers that [tokenize] accepts, by their lower-case text. *)
Definition knownName (low : list ascii) : bool :=
  hasKey (string_of_list_ascii low) functions
  || hasKey (string_of_list_ascii low) constants
  || String.eqb (string_of_list_ascii low) "ans".

(** The bytes that start a turn of the main loop without an error. *)
Definition isLexable (ch : ascii) : bool :=
  IsSpace ch || isPointOrDigit ch || isSignByte ch
  || Ascii.eqb ch "*" || Ascii.eqb ch "/" || Ascii.eqb ch "^"
  || Ascii.eqb ch "(" || Ascii.eqb ch ")" || Ascii.eqb ch ","
  || isIdentStart ch.

(** [lexError s e]: the text [s] starts with what the lexer refuses with
    [e]: a byte that starts no token, or a longest run of identifier bytes
    whose lower-case text is no known name. *)
Definition lexError (s : list ascii) (e : error) : Prop :=
  (exists ch rest,
     s = ch :: rest /\ isLexable ch = false /\ e = ErrInvalidChar ch)
  \/ (exists ch id rest,
       s = ch :: id ++ rest /\ isIdentStart ch = true
       /\ forallb isIdent id = true
       /\ match rest with [] => true | c :: _ => negb (isIdent c) end = true
       /\ knownName (ToLower (ch :: id)) = false
       /\ e = ErrUnknownIdent (string_of_list_ascii (ch :: id))).

(** The bytes that are a token of their own. *)
Definition isPunct (ch : ascii) : bool :=
  isSignByte ch || Ascii.eqb ch "*" || Ascii.eqb ch "/" || Ascii.eqb ch "^"
  || Ascii.eqb ch "(" || Ascii.eqb ch ")" || Ascii.eqb ch ",".

(** [lexeme rest src]: in front of [rest], [src] is the text of one token:
    a digit or a point with all that the numeral scan takes after it, a
    byte that is a token of its own, or a longest run of identifier bytes
    whose lower-case text is a function name, a constant or ["ans"]. *)
Definition lexeme (rest src : list ascii) : Prop :=
  match src with
  | [] => False
  | ch :: body =>
    (isPointOrDigit ch = true
     /\ scanNumber false (body ++ rest) = (body, rest))
    \/ (body = [] /\ isPunct ch = true)
    \/ (isIdentStart ch = true
        /\ forallb isIdent body = true
        /\ match rest with [] => true | c :: _ => negb (isIdent c) end = true
        /\ knownName (ToLower src) = true)
  end.

(** [lexed s pre]: in front of [s], the text [pre] is made of white space
    and of texts of tokens, each one ending where the next begins. *)
Inductive lexed (s : list ascii) : list ascii -> Prop :=
| lexed_nil : lexed s []
| lexed_space (ch : ascii) (pre : list ascii) :
    IsSpace ch = true -> lexed s pre -> lexed s (ch :: pre)
| lexed_token (src pre : list ascii) :
    lexeme (pre ++ s) src -> lexed s pre -> lexed s (src ++ pre).

End Tokens.

(** The bytes a token was read from, up to the case of letters: its
    payload, without the [u] that marks a unary sign. *)
Definition tokenSource (t : token) : list ascii :=
  match typ t with
  | tOp =>
    if String.eqb (val t) "u-" then ["-"%char]
    else if String.eqb (val t) "u+" then ["+"%char]
    else list_ascii_of_string (val t)
  | _ => list_ascii_of_string (val t)
  end.

Definition notSpace (c : ascii) : bool := negb (IsSpace c).

(** ** Where the signs of a line end up *)




(** ** What the parser keeps and what it checks *)

(** The tokens that reach the postfix form: all but parentheses and
    argument separators. *)
Definition keeps (t : token) : bool :=
  match typ t with
  | tLParen | tRParen | tComma => false
  | _ => true
  end.

Definition isOperand (t : token) : bool :=
  match typ t with
  | tNumber | tIdent => true
  | _ => false
  end.

(** The tokens that [shuntingYard] pushes on its stack. *)
Definition stackable (t : token) : bool :=
  match typ t with
  | tOp | tFunc | tLParen => true
  | _ => false
  end.

Definition isLParen (t : token) : bool := tokenType_eqb (typ t) tLParen.

(** The left parentheses on the stack. *)
Definition countL (stack : list token) : nat :=
  List.length (filter isLParen stack).

(** The nesting of parentheses and separators, read off a token list
    alone: [d] parentheses are open; a right parenthesis needs one, and so
    does a separator. *)
Definition nestStep (t : token) (d : nat) : result nat :=
  match typ t with
  | tLParen => Ok (S d)
  | tRParen => match d with O => Err ErrUnbalanced | S d' => Ok d' end
  | tComma => match d with O => Err ErrCommaOutside | S _ => Ok d end
  | _ => Ok d
  end.

Fixpoint nesting (toks : list token) (d : nat) : result nat :=
  match toks with
  | [] => Ok d
  | t :: toks' => d' <- nestStep t d ;; nesting toks' d'
  end.

Definition parenCheck (toks : list token) : result unit :=
  d <- nesting toks 0 ;;
  match d with
  | O => Ok tt
  | S _ => Err ErrUnbalanced
  end.


(** ** What the evaluator does to its stack *)

Definition usesAns (t : token) : bool :=
  tokenType_eqb (typ t) tIdent && String.eqb (val t) "ans".

Section StackEffect.

Context {M : GoMath}.

(** By how much a turn of the loop of [evalRPN] that succeeds changes the
    size of the operand stack. *)
Definition net (t : token) : Z :=
  match typ t with
  | tNumber | tIdent => 1
  | tOp => if unary (opsAt (val t)) then 0 else -1
  | tFunc => 1 - Z.of_nat (requiredArity (val t))
  | tLParen | tRParen | tComma => 0
  end.

Definition netSum (rpn : list token) : Z := fold_right Z.add 0 (map net rpn).

End StackEffect.

(** The stage an error value belongs to. *)
Inductive stage : Set := Lexing | Parsing | Evaluating | Unused.

Definition stageOf (e : error) : stage :=
  match e with
  | ErrUnknownIdent _ | ErrInvalidChar _ => Lexing
  | ErrCommaOutside | ErrUnbalanced => Parsing
  | ErrParseFloat _ _ | ErrUnaryNoOperand | ErrBinaryFewOperands
  | ErrDivZero | ErrFuncFewArgs _ | ErrSqrtNegative | ErrInvalidExpr =>
    Evaluating
  | ErrUnsupportedFunc _ | ErrMaxArgs | ErrMinArgs => Unused
  end.


(** ** The whole expression language

    Numerals, the identifiers, signs, binary operators, parentheses and
    calls of one or two arguments, with the text of a term, its tokens,
    its postfix form and its value.  As for [expr], the reading is the one
    the pipeline is compared with. *)

Inductive term : Set :=
| TNum (n : list ascii)
| TId (name : string)
| TNeg (e : term)
| TPos (e : term)
| TBin (o : binop) (l r : term)
| TParen (e : term)
| TCall1 (f : string) (a : term)
| TCall2 (f : string) (a b : term).

Definition lparen : token := Token tLParen "(".
Definition rparen : token := Token tRParen ")".
Definition comma : token := Token tComma ",".

Fixpoint termTokens (t : term) : list token :=
  match t with
  | TNum n => [Token tNumber (string_of_list_ascii n)]
  | TId name => [Token tIdent name]
  | TNeg e => Token tOp "u-" :: termTokens e
  | TPos e => Token tOp "u+" :: termTokens e
  | TBin o l r => termTokens l ++ opToken o :: termTokens r
  | TParen e => lparen :: termTokens e ++ [rparen]
  | TCall1 f a => Token tFunc f :: lparen :: termTokens a ++ [rparen]
  | TCall2 f a b =>
    Token tFunc f :: lparen :: termTokens a ++ comma :: termTokens b ++ [rparen]
  end.

Fixpoint termPostfix (t : term) : list token :=
  match t with
  | TNum n => [Token tNumber (string_of_list_ascii n)]
  | TId name => [Token tIdent name]
  | TNeg e => termPostfix e ++ [Token tOp "u-"]
  | TPos e => termPostfix e ++ [Token tOp "u+"]
  | TBin o l r => termPostfix l ++ termPostfix r ++ [opToken o]
  | TParen e => termPostfix e
  | TCall1 f a => termPostfix a ++ [Token tFunc f]
  | TCall2 f a b => termPostfix a ++ termPostfix b ++ [Token tFunc f]
  end.

Fixpoint termText (t : term) : list ascii :=
  match t with
  | TNum n => n
  | TId name => list_ascii_of_string name
  | TNeg e => "-"%char :: termText e
  | TPos e => "+"%char :: termText e
  | TBin o l r => termText l ++ symbol o :: termText r
  | TParen e => "("%char :: termText e ++ [")"%char]
  | TCall1 f a =>
    list_ascii_of_string f ++ "("%char :: termText a ++ [")"%char]
  | TCall2 f a b =>
    list_ascii_of_string f
    ++ "("%char :: termText a ++ ","%char :: termText b ++ [")"%char]
  end.

(** [termFits m t]: without further parentheses, [t] reads back as itself
    where an operand of level [m] or more is expected.  A sign is of level
    4, above every binary operator, and takes an operand of level 4: a
    sign, or a numeral, identifier, parenthesis or call. *)
Fixpoint termFits (m : Z) (t : term) : bool :=
  match t with
  | TNum _ | TId _ => true
  | TNeg e | TPos e => (m <=? 4) && termFits 4 e
  | TBin o l r =>
    (m <=? level o) && termFits (leftBound o) l && termFits (rightBound o) r
  | TParen e => termFits 1 e
  | TCall1 _ a => termFits 1 a
  | TCall2 _ a b => termFits 1 a && termFits 1 b
  end.

(** The text of [t] starts with a sign. *)
Fixpoint leadingSign (t : term) : bool :=
  match t with
  | TNeg _ | TPos _ => true
  | TBin _ l _ => leadingSign l
  | _ => false
  end.

(** The type of the last token of [t], as the lexer remembers it. *)
Fixpoint lastType (t : term) : tokenType :=
  match t with
  | TNum _ => tNumber
  | TId _ => tIdent
  | TNeg e | TPos e => lastType e
  | TBin _ _ r => lastType r
  | TParen _ | TCall1 _ _ | TCall2 _ _ _ => tRParen
  end.

(** The names the lexer knows, in lower case. *)
Definition identNames : list string := ["ans"; "pi"; "e"]%string.
Definition unaryNames : list string :=
  ["sin"; "cos"; "tan"; "sqrt"; "log"; "ln"; "abs"; "floor"; "ceil";
   "round"]%string.
Definition binaryNames : list string := ["max"; "min"]%string.

Definition inNames (name : string) (names : list string) : bool :=
  existsb (String.eqb name) names.

(** The names of [t] are known, and each function has as many arguments
    as it takes. *)
Fixpoint termNamed (t : term) : bool :=
  match t with
  | TNum _ => true
  | TId name => inNames name identNames
  | TNeg e | TPos e | TParen e => termNamed e
  | TBin _ l r => termNamed l && termNamed r
  | TCall1 f a => inNames f unaryNames && termNamed a
  | TCall2 f a b => inNames f binaryNames && termNamed a && termNamed b
  end.

(** The numbers of [t] are numerals, and no second argument starts with a
    sign. *)
Fixpoint termLexes (t : term) : bool :=
  match t with
  | TNum n => isNumeral n
  | TId _ => true
  | TNeg e | TPos e | TParen e => termLexes e
  | TBin _ l r => termLexes l && termLexes r
  | TCall1 _ a => termLexes a
  | TCall2 _ a b => termLexes a && termLexes b && negb (leadingSign b)
  end.

(** The text left to scan stops a numeral: it is empty, or starts with a
    byte that is no digit, point or exponent marker. *)
Definition halts (rest : list ascii) : Prop :=
  match rest with
  | [] => True
  | c :: _ => isPointOrDigit c = false /\ isMarker c = false
  end.

Section TermValue.

Context {M : GoMath}.

(** The value of an entry of [functions] at the given arguments. *)
Definition applyFn (f : string) (args : list float) : result float :=
  match lookup f functions with
  | Some fn => fn args
  | None => Panic
  end.

Fixpoint termValue (ans : float) (t : term) : result float :=
  match t with
  | TNum n => ParseFloat (string_of_list_ascii n)
  | TId name =>
    if String.eqb name "ans" then Ok ans
    else match lookup name constants with
         | Some c => Ok c
         | None => Err (ErrUnknownIdent name)
         end
  | TNeg e => v <- termValue ans e ;; Ok (- v)%float
  | TPos e => termValue ans e
  | TBin o l r =>
    a <- termValue ans l ;; b <- termValue ans r ;; applyOp o a b
  | TParen e => termValue ans e
  | TCall1 f a => x <- termValue ans a ;; applyFn f [x]
  | TCall2 f a b =>
    x <- termValue ans a ;; y <- termValue ans b ;; applyFn f [x; y]
  end.

End TermValue.

(** The stack of the parser where a term of level [m] may be read: empty,
    or topped by a left parenthesis, by a sign (then [m] is 4), or by a
    binary operator that operators of level [m] do not move. *)
Definition termStack (m : Z) (stack : list token) : Prop :=
  match stack with
  | [] => True
  | top :: _ =>
    top = lparen
    \/ ((top = Token tOp "u-" \/ top = Token tOp "u+") /\ 4 <= m)
    \/ exists s, top = opToken s /\ rightBound s <= m
  end.

(** The tokens after a term of level [m]: none, a right parenthesis, a
    separator, or a binary operator that moves the operators of level [m]
    or more. *)
Definition termRest (m : Z) (rest : list token) : Prop :=
  match rest with
  | [] => True
  | t :: _ =>
    t = rparen \/ t = comma \/ exists o, t = opToken o /\ leftBound o <= m
  end.

(** The text after a term: none, or an operator symbol, a right
    parenthesis or a comma. *)
Definition atDelimiter (rest : list ascii) : Prop :=
  match rest with
  | [] => True
  | c :: _ => (exists o, c = symbol o) \/ c = ")"%char \/ c = ","%char
  end.

(** The state of the lexer in which a sign is read as unary. *)
Definition opensSign (prevType : tokenType) (toks : list token) : bool :=
  tokenType_eqb prevType tOp || tokenType_eqb prevType tLParen
  || (List.length toks =? 0)%nat.


(** ** The session loop ([main], lines 341-380)

    What [main] writes is a list of [output]s, what it reads the list of
    the lines that the scanner yields; [lastAns] is threaded through the
    turns.  [strings.ToLower] on a whole line is a variable of the
    section: it is only compared with the names of the commands. *)

Inductive output : Type :=
| OutBanner                  (* "Calculadora em Go — REPL (:help para ajuda)" *)
| OutPrompt                  (* "> " *)
| OutHelp                    (* the lines of printHelp *)
| OutConstants               (* "Constantes:" and the entries of constants *)
| OutFunctions               (* "Funções: ..." *)
| OutUnknownCommand          (* "Comando desconhecido. Use :help" *)
| OutError (e : error)       (* "Erro:" and the error *)
| OutResult (v : float).     (* "= " and the result *)

(** How the loop ends: the scanner has no more line, a command returns
    from [main], or a panic ends the program. *)
Inductive ending : Set := EndOfInput | Quit | Crash.

(** The blanks of an ASCII line. *)
Definition isBlank (c : ascii) : bool := between 9 13 c || (code c =? 32).

(** The last result written, [a] when there is none. *)
Fixpoint lastResult (a : float) (outs : list output) : float :=
  match outs with
  | [] => a
  | OutResult v :: outs' => lastResult v outs'
  | _ :: outs' => lastResult a outs'
  end.

Section Session.

Context {M : GoMath}.

Variable strings_ToLower : list ascii -> list ascii.

Definition lowered (line : list ascii) : string :=
  string_of_list_ascii (strings_ToLower line).

(** [strings.HasPrefix(line, ":")]. *)
Definition isCommand (line : list ascii) : bool :=
  match line with
  | c :: _ => Ascii.eqb c ":"
  | [] => false
  end.

Definition isQuit (line : list ascii) : bool :=
  String.eqb (lowered line) ":quit" || String.eqb (lowered line) ":q"
  || String.eqb (lowered line) ":exit".

(** The other cases of the switch of lines 355-369. *)
Definition commandOutput (line : list ascii) : output :=
  if String.eqb (lowered line) ":help" || String.eqb (lowered line) ":h"
  then OutHelp
  else if String.eqb (lowered line) ":const" then OutConstants
  else if String.eqb (lowered line) ":func" then OutFunctions
  else OutUnknownCommand.

(** The prompt and the output of one turn, before the turns that follow. *)
Definition turn (outs : list output) (r : list output * float * ending)
  : list output * float * ending :=
  let '(o, a, e) := r in (OutPrompt :: outs ++ o, a, e).

(** The loop of lines 345-379. *)
Fixpoint mainLoop (lines : list string) (lastAns : float)
  : list output * float * ending :=
  match lines with
  | [] => ([OutPrompt], lastAns, EndOfInput)
  | text :: lines' =>
    let line := TrimSpace (list_ascii_of_string text) in
    match line with
    | [] => turn [] (mainLoop lines' lastAns)
    | _ :: _ =>
      if isCommand line then
        if isQuit line then ([OutPrompt], lastAns, Quit)
        else turn [commandOutput line] (mainLoop lines' lastAns)
      else
        match evalExpr (string_of_list_ascii line) lastAns with
        | Ok res => turn [OutResult res] (mainLoop lines' res)
        | Err e => turn [OutError e] (mainLoop lines' lastAns)
        | Panic => ([OutPrompt], lastAns, Crash)
        end
    end
  end.

Definition main (lines : list string) : list output * ending :=
  let '(o, _, e) := mainLoop lines 0%float in (OutBanner :: o, e).

End Session.


(** * Properties *)

(** ** Bytes *)

(** Is the byte [c] the byte [k]?  In the first goal it is, and is
    replaced by it. *)
Ltac byte_case c k :=
  let E := fresh "E" in
  destruct (Ascii.eqb c k) eqn:E; [apply Ascii.eqb_eq in E; subst c|].

Lemma digit_not_sign (c : ascii) :
  isPointOrDigit c = true -> isSignByte c = false.
Proof.
  unfold isSignByte. intros H.
  destruct (Ascii.eqb_spec c "+") as [->|_]; [discriminate H|].
  destruct (Ascii.eqb_spec c "-") as [->|_]; [discriminate H|].
  reflexivity.
Qed.

Lemma digit_not_marker (c : ascii) :
  isPointOrDigit c = true -> isMarker c = false.
Proof.
  unfold isMarker. intros H.
  destruct (Ascii.eqb_spec c "e") as [->|_]; [discriminate H|].
  destruct (Ascii.eqb_spec c "E") as [->|_]; [discriminate H|].
  reflexivity.
Qed.

Lemma marker_not_sign (c : ascii) : isMarker c = true -> isSignByte c = false.
Proof.
  unfold isSignByte. intros H.
  destruct (Ascii.eqb_spec c "+") as [->|_]; [discriminate H|].
  destruct (Ascii.eqb_spec c "-") as [->|_]; [discriminate H|].
  reflexivity.
Qed.

Lemma sign_not_marker (c : ascii) : isSignByte c = true -> isMarker c = false.
Proof.
  intros H. destruct (isMarker c) eqn:E; [|reflexivity].
  apply marker_not_sign in E. congruence.
Qed.

(** ** The scanning loops *)

Lemma scanNumber_split (hasE : bool) (s : list ascii) :
  fst (scanNumber hasE s) ++ snd (scanNumber hasE s) = s.
Proof.
  functional induction (scanNumber hasE s); simpl; try reflexivity;
    repeat match goal with
           | H : scanNumber _ _ = _ |- _ => rewrite H in *; clear H
           end; simpl in *; congruence.
Qed.

Lemma scanIdent_split (s : list ascii) :
  fst (scanIdent s) ++ snd (scanIdent s) = s.
Proof.
  functional induction (scanIdent s); simpl; try reflexivity.
  rewrite e1 in IHp. simpl in IHp. congruence.
Qed.

Lemma scanNumber_rest_length (hasE : bool) (s : list ascii) :
  (List.length (snd (scanNumber hasE s)) <= List.length s)%nat.
Proof.
  rewrite <- (scanNumber_split hasE s) at 2. rewrite length_app. lia.
Qed.

Lemma scanIdent_rest_length (s : list ascii) :
  (List.length (snd (scanIdent s)) <= List.length s)%nat.
Proof.
  rewrite <- (scanIdent_split s) at 2. rewrite length_app. lia.
Qed.

(** The bytes of a scanned numeral. *)
Lemma scanNumber_alphabet (hasE : bool) (s : list ascii) :
  forallb (fun b => isPointOrDigit b || isMarker b || isSignByte b)
          (fst (scanNumber hasE s)) = true.
Proof.
  functional induction (scanNumber hasE s); simpl; try reflexivity;
    repeat match goal with
           | H : scanNumber _ _ = _ |- _ => rewrite H in *; clear H
           end; simpl in *.
  - unfold isPointOrDigit at 1. rewrite e0. assumption.
  - apply andb_prop in e1 as [e1 _]. unfold isMarker at 1. rewrite e1.
    rewrite orb_true_r. reflexivity.
  - apply andb_prop in e1 as [e1 _]. unfold isMarker at 1. rewrite e1.
    unfold isSignByte at 2. rewrite e3. rewrite IHp. rewrite !orb_true_r.
    reflexivity.
  - apply andb_prop in e1 as [e1 _]. unfold isMarker at 1. rewrite e1.
    rewrite IHp. rewrite orb_true_r. reflexivity.
Qed.

(** At most one exponent marker, none once [hasE] is set. *)
Lemma scanNumber_markers (hasE : bool) (s : list ascii) :
  (List.length (filter isMarker (fst (scanNumber hasE s)))
   <= if hasE then 0 else 1)%nat.
Proof.
  functional induction (scanNumber hasE s); simpl;
    repeat match goal with
           | H : scanNumber _ _ = _ |- _ => rewrite H in *; clear H
           end; simpl in *.
  - destruct hasE; lia.
  - rewrite (digit_not_marker r e0). assumption.
  - apply andb_prop in e1 as [e1 e1']. destruct hasE; [discriminate|].
    unfold isMarker. rewrite e1. simpl. lia.
  - apply andb_prop in e1 as [e1 e1']. destruct hasE; [discriminate|].
    unfold isMarker at 1. rewrite e1. rewrite (sign_not_marker sg e3).
    simpl. lia.
  - apply andb_prop in e1 as [e1 e1']. destruct hasE; [discriminate|].
    unfold isMarker at 1. rewrite e1. simpl. lia.
  - destruct hasE; lia.
Qed.

(** A sign is only scanned directly after the marker. *)
Lemma scanNumber_signs (hasE : bool) (s : list ascii) :
  forall prev, signsFollowMarker prev (fst (scanNumber hasE s)) = true.
Proof.
  functional induction (scanNumber hasE s); intros prev; simpl;
    try reflexivity;
    repeat match goal with
           | H : scanNumber _ _ = _ |- _ => rewrite H in *; clear H
           end; simpl in *.
  - rewrite (digit_not_sign r e0). apply IHp.
  - apply andb_prop in e1 as [e1 _].
    rewrite (marker_not_sign r e1). reflexivity.
  - apply andb_prop in e1 as [e1 _].
    rewrite (marker_not_sign r e1).
    change (isSignByte sg) with (Ascii.eqb sg "+" || Ascii.eqb sg "-").
    change (isMarker r) with (Ascii.eqb r "e" || Ascii.eqb r "E").
    rewrite e3, e1. apply IHp.
  - apply andb_prop in e1 as [e1 _].
    rewrite (marker_not_sign r e1). apply IHp.
Qed.

Lemma numberShape_scanned (ch : ascii) (s : list ascii) :
  isPointOrDigit ch = true ->
  numberShape (string_of_list_ascii (ch :: fst (scanNumber false s))) = true.
Proof.
  intros Hch. unfold numberShape.
  rewrite list_ascii_of_string_of_list_ascii.
  rewrite Hch, scanNumber_alphabet, scanNumber_signs, andb_true_r. simpl.
  apply Nat.leb_le. apply (scanNumber_markers false s).
Qed.

Section Lexer.

Context {M : GoMath}.

(** ** One turn of the main loop of [tokenize] *)

Lemma tokenizeLoop_turn (fuel : nat) (ch : ascii) (s' : list ascii)
    (p : tokenType) (toks : list token) :
  (IsSpace ch = true
   /\ tokenizeLoop (S fuel) (ch :: s') p toks = tokenizeLoop fuel s' p toks)
  \/ (exists t p' rest,
        emitted p toks t p' /\ (List.length rest <= List.length s')%nat
        /\ tokenizeLoop (S fuel) (ch :: s') p toks
           = tokenizeLoop fuel rest p' (toks ++ [t]))
  \/ (exists e, tokenizeLoop (S fuel) (ch :: s') p toks = Some (Err e)).
Proof.
  cbn [tokenizeLoop].
  destruct (IsSpace ch); [left; split; reflexivity|]. right.
  destruct (IsDigit ch || Ascii.eqb ch ".") eqn:Hd.
  { left. pose proof (scanNumber_rest_length false s') as Hl.
    pose proof (emit_number p toks ch s' Hd) as He.
    destruct (scanNumber false s') as [num rest]. eauto 6. }
  destruct (Ascii.eqb ch "+" || Ascii.eqb ch "-") eqn:Hs.
  { left. pose proof (emit_sign p toks ch Hs). eauto 6. }
  destruct (Ascii.eqb ch "*" || Ascii.eqb ch "/" || Ascii.eqb ch "^") eqn:Ho.
  { left. pose proof (emit_op p toks ch Ho). eauto 6. }
  destruct (Ascii.eqb ch "("). { left. pose proof (emit_lparen p toks). eauto 6. }
  destruct (Ascii.eqb ch ")"). { left. pose proof (emit_rparen p toks). eauto 6. }
  destruct (Ascii.eqb ch ","). { left. pose proof (emit_comma p toks). eauto 6. }
  destruct (isIdentStart ch); [|right; eauto].
  pose proof (scanIdent_rest_length s') as Hl.
  destruct (scanIdent s') as [id' rest]. cbv zeta.
  destruct (hasKey _ functions).
  { left. eexists _, _, _. split; [apply emit_func|]. split; [exact Hl|reflexivity]. }
  destruct (hasKey _ constants || String.eqb _ "ans").
  { left. eexists _, _, _. split; [apply emit_ident|]. split; [exact Hl|reflexivity]. }
  right. eauto.
Qed.

(** The loop ends within [fuel] turns when [fuel] is the length of the
    text: [tokenize] never takes its [None] branch. *)
Lemma tokenizeLoop_total (fuel : nat) :
  forall s p toks, (List.length s <= fuel)%nat ->
  tokenizeLoop fuel s p toks <> None.
Proof.
  induction fuel as [|fuel IH]; intros s p toks Hlen.
  - destruct s; [discriminate | simpl in Hlen; lia].
  - destruct s as [|ch s']; [discriminate|]. simpl in Hlen.
    destruct (tokenizeLoop_turn fuel ch s' p toks)
      as [[_ ->] | [(t & p' & rest & _ & Hl & ->) | [e ->]]].
    + apply IH. lia.
    + apply IH. lia.
    + discriminate.
Qed.

Lemma tokenizeLoop_no_panic (fuel : nat) :
  forall s p toks, tokenizeLoop fuel s p toks <> Some Panic.
Proof.
  induction fuel as [|fuel IH]; intros s p toks.
  - destruct s; discriminate.
  - destruct s as [|ch s']; [discriminate|].
    destruct (tokenizeLoop_turn fuel ch s' p toks)
      as [[_ ->] | [(t & p' & rest & _ & _ & ->) | [e ->]]];
      [apply IH | apply IH | discriminate].
Qed.

(** [tokenize] always returns: its tokens, or one of its two errors. *)
Lemma tokenize_returns (input : string) :
  (exists toks, tokenize input = Ok toks)
  \/ (exists e, tokenize input = Err e).
Proof.
  unfold tokenize.
  pose proof (tokenizeLoop_total _ (TrimSpace (list_ascii_of_string input))
                tOp [] (Nat.le_refl _)) as Htot.
  pose proof (tokenizeLoop_no_panic
                (List.length (TrimSpace (list_ascii_of_string input)))
                (TrimSpace (list_ascii_of_string input)) tOp []) as Hnp.
  destruct (tokenizeLoop _ _ _ _) as [[toks|e|]|]; eauto; congruence.
Qed.

Lemma tokenizeLoop_produces (fuel : nat) :
  forall s p toks r,
  tokenizeLoop fuel s p toks = Some (Ok r) -> exists p', produces p toks p' r.
Proof.
  induction fuel as [|fuel IH]; intros s p toks r H.
  - destruct s; [|discriminate]. injection H as <-. eexists. constructor.
  - destruct s as [|ch s']. { injection H as <-. eexists. constructor. }
    destruct (tokenizeLoop_turn fuel ch s' p toks)
      as [[_ E] | [(t & p1 & rest & Hem & _ & E) | [e E]]]; rewrite E in H.
    + eapply IH; eassumption.
    + destruct (IH _ _ _ _ H) as [p' Hp]. exists p'.
      eapply produces_step; eassumption.
    + discriminate.
Qed.

Lemma tokenize_produces (input : string) (toks : list token) :
  tokenize input = Ok toks -> exists p', produces tOp [] p' toks.
Proof.
  unfold tokenize. intros H.
  destruct (tokenizeLoop _ _ _ _) as [r|] eqn:E; [|discriminate].
  subst r. eapply tokenizeLoop_produces; eassumption.
Qed.

(** ** The sign rule *)

Lemma lastToken_cons (a : token) (toks : list token) :
  lastToken (a :: toks)
  = match lastToken toks with Some l => Some l | None => Some a end.
Proof.
  unfold lastToken. simpl. destruct (rev toks); reflexivity.
Qed.


Lemma lastToken_none (toks : list token) : lastToken toks = None -> toks = [].
Proof.
  destruct toks as [|a toks]; [reflexivity|].
  rewrite lastToken_cons. destruct (lastToken toks); discriminate.
Qed.







(** ** Number payloads *)

Lemma produces_shapes (p : tokenType) (toks : list token) (p' : tokenType)
    (r : list token) :
  produces p toks p' r ->
  (forall t, In t toks -> typ t = tNumber -> numberShape (val t) = true) ->
  forall t, In t r -> typ t = tNumber -> numberShape (val t) = true.
Proof.
  induction 1 as [|p toks t p1 p' r Hem _ IH]; intros Hall; [assumption|].
  apply IH. intros t' Hin Htyp. apply in_app_or in Hin as [Hin|[<-|[]]].
  - apply Hall; assumption.
  - destruct Hem; try discriminate Htyp.
    apply numberShape_scanned. assumption.
Qed.

End Lexer.

Section Evaluator.

Context {M : GoMath}.

(** ** The evaluation loop *)

Lemma evalLoop_app (ans : float) (a b : list token) :
  forall st,
  evalLoop ans (a ++ b) st = (st' <- evalLoop ans a st ;; evalLoop ans b st').
Proof.
  induction a as [|t a IH]; intros st; [reflexivity|].
  cbn [app evalLoop]. destruct (evalStep ans t st); cbn [bind];
    [apply IH | reflexivity | reflexivity].
Qed.

(** An error of one turn is the error of the whole evaluation. *)
Lemma evalRPN_step_error (ans : float) (rpn rest : list token) (t : token)
    (st : list float) (e : error) :
  evalLoop ans rpn [] = Ok st -> evalStep ans t st = Err e ->
  evalRPN (rpn ++ t :: rest) ans = Err e.
Proof.
  intros Hl Hs. unfold evalRPN. rewrite evalLoop_app, Hl.
  cbn [bind evalLoop]. rewrite Hs. reflexivity.
Qed.

(** C6: [evalRPN] returns a value exactly when its loop consumes every
    token without error and leaves exactly one value on the operand stack,
    and that value is the result; when the loop leaves no value or more
    than one, [evalRPN] fails with the invalid-expression error; an error
    of the loop is returned as it is. *)
Theorem evalRPN_terminal_stack (rpn : list token) (ans : float) :
  (forall v, evalRPN rpn ans = Ok v <-> evalLoop ans rpn [] = Ok [v])
  /\ (forall st, evalLoop ans rpn [] = Ok st -> List.length st <> 1%nat ->
      evalRPN rpn ans = Err ErrInvalidExpr)
  /\ (forall e, evalLoop ans rpn [] = Err e -> evalRPN rpn ans = Err e).
Proof.
  unfold evalRPN. destruct (evalLoop ans rpn []) as [st|e|]; cbn [bind].
  - split; [|split].
    + intros v. destruct st as [|x [|y st]]; split; intros H;
        try discriminate H; congruence.
    + intros st' [= <-] Hlen. destruct st as [|x [|y st]];
        [reflexivity | elim Hlen; reflexivity | reflexivity].
    + discriminate.
  - split; [|split]; [split|..]; try discriminate. congruence.
  - split; [|split]; [split|..]; discriminate.
Qed.

(** C4: whenever the loop of [evalRPN] reaches the operator [/] with a
    right operand equal to zero on top of the stack, the evaluation fails
    with the division-by-zero error; the line "1/0" fails with it, so it
    yields no value, infinite or NaN. *)
Theorem division_by_zero (ans : float) :
  (forall rpn rest a b st,
     evalLoop ans rpn [] = Ok (b :: a :: st) -> (b =? 0)%float = true ->
     evalRPN (rpn ++ Token tOp "/" :: rest) ans = Err ErrDivZero)
  /\ evalExpr "1/0" ans = Err ErrDivZero.
Proof.
  split.
  - intros rpn rest a b st Hl Hb.
    apply (evalRPN_step_error ans rpn rest _ _ _ Hl).
    unfold evalStep. cbn. rewrite Hb. reflexivity.
  - vm_compute. reflexivity.
Qed.

(** C5: whenever the loop of [evalRPN] reaches [sqrt] with a negative
    operand on top of the stack, the evaluation fails with the error of
    [sqrt] and no result is produced; the line "sqrt(-1)" fails with it. *)
Theorem sqrt_of_negative (ans : float) :
  (forall rpn rest x st,
     evalLoop ans rpn [] = Ok (x :: st) -> (x <? 0)%float = true ->
     evalRPN (rpn ++ Token tFunc "sqrt" :: rest) ans = Err ErrSqrtNegative)
  /\ evalExpr "sqrt(-1)" ans = Err ErrSqrtNegative.
Proof.
  split.
  - intros rpn rest x st Hl Hx.
    apply (evalRPN_step_error ans rpn rest _ _ _ Hl).
    unfold evalStep. cbn. rewrite Hx. reflexivity.
  - vm_compute. reflexivity.
Qed.

(** C8: a function token applied to a stack holding fewer values than its
    arity (2 for [max] and [min], 1 otherwise) is an error; the line
    "max(3)" reaches [max] with the single value 3 on the stack and fails
    with the too-few-arguments error of [max]. *)
Theorem too_few_arguments (ans : float) :
  (forall name st,
     (List.length st < requiredArity name)%nat ->
     evalStep ans (Token tFunc name) st = Err (ErrFuncFewArgs name))
  /\ (toks <- tokenize "max(3)" ;; shuntingYard toks)
     = Ok [Token tNumber "3"; Token tFunc "max"]
  /\ evalExpr "max(3)" ans = Err (ErrFuncFewArgs "max").
Proof.
  split; [|split].
  - intros name st Hlen. unfold evalStep, requiredArity in *. cbn [typ val].
    apply Nat.ltb_lt in Hlen. rewrite Hlen. reflexivity.
  - vm_compute. reflexivity.
  - vm_compute. reflexivity.
Qed.


(** The errors of the entries of [functions]: the domain error of [sqrt],
    and the argument-count errors of [max] and [min]. *)
Lemma functions_errors (name : string) (f : list float -> result float)
    (args : list float) (e : error) :
  lookup name functions = Some f -> f args = Err e ->
  (name = "sqrt"%string /\ e = ErrSqrtNegative)
  \/ (name = "max"%string /\ e = ErrMaxArgs)
  \/ (name = "min"%string /\ e = ErrMinArgs).
Proof.
  unfold functions. cbn [lookup].
  repeat match goal with
         | |- context [String.eqb name ?k] =>
           destruct (String.eqb_spec name k) as [->|_]
         end; intros [= <-] H; try discriminate H;
    unfold unaryFn, index in H;
    repeat match type of H with
           | context [nth_error ?a ?i] => destruct (nth_error a i); cbn [bind] in H
           | context [if ?c then _ else _] => destruct c
           end; try discriminate H; injection H as <-; auto.
Qed.

(** C10: given that [math.Log] and [math.Log10] answer NaN at -1 (Go
    documents NaN for every negative argument), the lines "ln(-1)" and
    "log(-1)" are evaluated without error and their value is NaN; no entry
    of [functions] other than [sqrt] answers an error when it is given as
    many arguments as its name stands for. *)
Theorem log_of_negative
    (HLog : is_nan (math_Log (-1)%float) = true)
    (HLog10 : is_nan (math_Log10 (-1)%float) = true) (ans : float) :
  (exists v, evalExpr "ln(-1)" ans = Ok v /\ is_nan v = true)
  /\ (exists v, evalExpr "log(-1)" ans = Ok v /\ is_nan v = true)
  /\ (forall name f args e,
        lookup name functions = Some f ->
        List.length args = requiredArity name -> f args = Err e ->
        name = "sqrt"%string /\ e = ErrSqrtNegative).
Proof.
  split; [|split].
  - exists (math_Log (-1)%float). split; [vm_compute; reflexivity | exact HLog].
  - exists (math_Log10 (-1)%float). split; [vm_compute; reflexivity | exact HLog10].
  - intros name f args e Hf Hlen He.
    destruct (functions_errors _ _ _ _ Hf He) as [H | [[-> ->] | [-> ->]]];
      [exact H | |]; cbn in Hf; injection Hf as <-;
      destruct args as [|a0 [|a1 [|a2 args]]]; try discriminate Hlen;
      cbn in He; destruct (_ <? _)%float; discriminate He.
Qed.

(** C3, on the code: "max(3,9)" evaluates to 9, but "min(4,-2)" does not
    evaluate to -2: its [-] follows the argument separator, is lexed as the
    binary operator, and leaves [min] a single operand. *)
Theorem max_min_examples (ans : float) :
  evalExpr "max(3,9)" ans = Ok 9%float
  /\ tokenize "min(4,-2)"
     = Ok [Token tFunc "min"; Token tLParen "("; Token tNumber "4";
           Token tComma ","; Token tOp "-"; Token tNumber "2";
           Token tRParen ")"]
  /\ evalExpr "min(4,-2)" ans = Err (ErrFuncFewArgs "min")
  /\ evalExpr "min(4, -2)" ans = Err (ErrFuncFewArgs "min").
Proof.
  repeat split; vm_compute; reflexivity.
Qed.

(** C7, as the code has it: the payload of every Number token of an
    accepted line is a digit or a point followed by digits, points, at most
    one exponent marker and signs only directly after the marker; when
    [strconv.ParseFloat] refuses a Number payload, [evalRPN] returns its
    error. *)
Theorem number_payloads :
  (forall input toks t,
     tokenize input = Ok toks -> In t toks -> typ t = tNumber ->
     numberShape (val t) = true)
  /\ (forall ans rpn rest t st e,
        evalLoop ans rpn [] = Ok st -> typ t = tNumber ->
        ParseFloat (val t) = Err e ->
        evalRPN (rpn ++ t :: rest) ans = Err e).
Proof.
  split.
  - intros input toks t H. destruct (tokenize_produces _ _ H) as [p' Hp].
    apply (produces_shapes _ _ _ _ Hp). intros t' [].
  - intros ans rpn rest t st e Hl Ht Hp.
    apply (evalRPN_step_error ans rpn rest _ _ _ Hl).
    unfold evalStep. rewrite Ht, Hp. reflexivity.
Qed.

End Evaluator.

Section Pipeline.

Context {M : GoMath}.

(** ** Numerals are read whole *)

Lemma symbol_stops (o : binop) :
  isPointOrDigit (symbol o) = false /\ isMarker (symbol o) = false
  /\ IsSpace (symbol o) = false.
Proof. destruct o; repeat split. Qed.

Lemma scanNumber_stop (hasE : bool) (rest : list ascii) :
  atOperator rest -> scanNumber hasE rest = ([], rest).
Proof.
  destruct rest as [|c rest]; [reflexivity|]. intros [o ->].
  destruct o, hasE; reflexivity.
Qed.

Lemma scanNumber_digit (hasE : bool) (c : ascii) (s : list ascii) :
  isPointOrDigit c = true ->
  scanNumber hasE (c :: s)
  = (c :: fst (scanNumber hasE s), snd (scanNumber hasE s)).
Proof.
  intros Hc. cbn [scanNumber]. unfold isPointOrDigit in Hc. rewrite Hc.
  destruct (scanNumber hasE s). reflexivity.
Qed.

Lemma dropDigits_nil (c : ascii) (d : list ascii) :
  dropDigits (c :: d) = [] -> IsDigit c = true /\ dropDigits d = [].
Proof.
  cbn [dropDigits]. destruct (IsDigit c); [auto | discriminate].
Qed.

Lemma IsDigit_point (c : ascii) : IsDigit c = true -> isPointOrDigit c = true.
Proof. unfold isPointOrDigit. intros ->. reflexivity. Qed.

Lemma scan_exponent_digits (d rest : list ascii) :
  dropDigits d = [] -> atOperator rest ->
  scanNumber true (d ++ rest) = (d, rest).
Proof.
  intros Hd Hrest. induction d as [|c d IH].
  - apply scanNumber_stop. assumption.
  - apply dropDigits_nil in Hd as [Hc Hd]. cbn [app].
    rewrite (scanNumber_digit _ _ _ (IsDigit_point _ Hc)), (IH Hd).
    reflexivity.
Qed.

Lemma scan_exponent (x rest : list ascii) :
  isExponent x = true -> atOperator rest ->
  scanNumber false (x ++ rest) = (x, rest).
Proof.
  destruct x as [|m x1]; [discriminate|]. cbn [isExponent].
  intros H Hrest. apply andb_prop in H as [Hm H].
  assert (Hnd : IsDigit m || Ascii.eqb m "." = false).
  { destruct (IsDigit m || Ascii.eqb m ".") eqn:E; [|reflexivity].
    apply digit_not_marker in E. unfold isMarker in E. congruence. }
  cbn [app scanNumber]. rewrite Hnd, Hm. cbn [negb andb].
  destruct x1 as [|sg x2]; [discriminate H|]. cbn [app].
  destruct (Ascii.eqb sg "+" || Ascii.eqb sg "-") eqn:Hsg.
  - destruct x2 as [|c x3]; [discriminate H|].
    apply andb_prop in H as [_ H].
    destruct (dropDigits (c :: x3)) eqn:Hd; [|discriminate H].
    rewrite (scan_exponent_digits _ _ Hd Hrest). reflexivity.
  - apply andb_prop in H as [_ H].
    destruct (dropDigits (sg :: x2)) eqn:Hd; [|discriminate H].
    change (sg :: x2 ++ rest) with ((sg :: x2) ++ rest).
    rewrite (scan_exponent_digits _ _ Hd Hrest). reflexivity.
Qed.

Lemma scan_fraction (s rest : list ascii) :
  match dropDigits s with [] => true | _ :: _ => isExponent (dropDigits s) end
  = true ->
  atOperator rest -> scanNumber false (s ++ rest) = (s, rest).
Proof.
  intros H Hrest. induction s as [|c s IH].
  - apply scanNumber_stop. assumption.
  - cbn [dropDigits] in H. destruct (IsDigit c) eqn:Hc.
    + cbn [app]. rewrite (scanNumber_digit _ _ _ (IsDigit_point _ Hc)), (IH H).
      reflexivity.
    + apply scan_exponent; assumption.
Qed.

Lemma scan_mantissa (s rest : list ascii) :
  match (match dropDigits s with
         | p :: r => if Ascii.eqb p "." then dropDigits r else dropDigits s
         | [] => []
         end) with
  | [] => true
  | x => isExponent x
  end = true ->
  atOperator rest -> scanNumber false (s ++ rest) = (s, rest).
Proof.
  intros H Hrest. induction s as [|c s IH].
  - apply scanNumber_stop. assumption.
  - cbn [dropDigits] in H. destruct (IsDigit c) eqn:Hc.
    + cbn [app]. rewrite (scanNumber_digit _ _ _ (IsDigit_point _ Hc)), (IH H).
      reflexivity.
    + destruct (Ascii.eqb c ".") eqn:Hp.
      * cbn [app]. rewrite scanNumber_digit
          by (unfold isPointOrDigit; rewrite Hp; apply orb_true_r).
        rewrite (scan_fraction s rest); [reflexivity | | assumption].
        destruct (dropDigits s); [reflexivity | assumption].
      * apply scan_exponent; assumption.
Qed.

(** A numeral followed by an operator symbol, or by nothing, is scanned as
    one Number payload. *)
Lemma scan_numeral (c : ascii) (n rest : list ascii) :
  isNumeral (c :: n) = true -> atOperator rest ->
  IsDigit c = true /\ scanNumber false (n ++ rest) = (n, rest).
Proof.
  unfold isNumeral. intros H Hrest. apply andb_prop in H as [Hc H].
  split; [assumption|]. cbn [dropDigits] in H. rewrite Hc in H.
  apply scan_mantissa; [|assumption].
  destruct (dropDigits n) as [|p r]; [reflexivity|].
  destruct (Ascii.eqb p "."); [|assumption].
  destruct (dropDigits r); [reflexivity | assumption].
Qed.

(** ** The lexer on the text of a tree *)

Lemma infix_length (t : expr) : (0 < List.length (infix t))%nat.
Proof.
  destruct t; cbn [infix]; [|rewrite length_app]; cbn [List.length]; lia.
Qed.

Lemma tokenize_operator (fuel : nat) (o : binop) (s : list ascii)
    (toks : list token) :
  (0 < List.length toks)%nat ->
  tokenizeLoop (S fuel) (symbol o :: s) tNumber toks
  = tokenizeLoop fuel s tOp (toks ++ [opToken o]).
Proof.
  intros Hlen. cbn [tokenizeLoop].
  destruct (List.length toks =? 0)%nat eqn:E;
    [apply Nat.eqb_eq in E; lia|].
  destruct o; reflexivity.
Qed.

Lemma tokenize_tree (t : expr) :
  numerals t = true ->
  forall fuel rest p toks,
  atOperator rest ->
  tokenizeLoop (List.length (infix t) + fuel) (text t ++ rest) p toks
  = tokenizeLoop fuel rest tNumber (toks ++ infix t).
Proof.
  induction t as [n | o l IHl r IHr]; cbn [numerals infix text].
  - intros Hn fuel rest p toks Hrest.
    destruct n as [|c n]; [discriminate Hn|].
    destruct (scan_numeral c n rest Hn Hrest) as [Hc Hscan].
    cbn [List.length Nat.add app tokenizeLoop].
    assert (Hsp : IsSpace c = false).
    { unfold IsDigit, IsSpace, between in *.
      apply andb_prop in Hc as [H1 H2].
      apply Z.leb_le in H1. apply Z.leb_le in H2.
      repeat match goal with
             | |- context [(?a <=? ?b)] => destruct (Z.leb_spec a b)
             | |- context [(?a =? ?b)] => destruct (Z.eqb_spec a b)
             end; try reflexivity; lia. }
    rewrite Hsp, Hc, Hscan. reflexivity.
  - intros Hn fuel rest p toks Hrest.
    apply andb_prop in Hn as [Hl Hr].
    rewrite length_app. cbn [List.length].
    rewrite <- !app_assoc. cbn [app].
    rewrite <- Nat.add_assoc.
    rewrite (IHl Hl); [|eexists; reflexivity].
    cbn [Nat.add]. rewrite tokenize_operator.
    + rewrite (IHr Hr _ _ _ _ Hrest). rewrite <- !app_assoc. reflexivity.
    + rewrite length_app. pose proof (infix_length l). lia.
Qed.

Lemma isNumeral_cons (n : list ascii) :
  isNumeral n = true -> exists c n', n = c :: n' /\ IsDigit c = true.
Proof.
  destruct n as [|c n']; [discriminate|]. intros H.
  apply andb_prop in H as [Hc _]. eauto.
Qed.

Lemma text_length (t : expr) :
  numerals t = true -> (List.length (infix t) <= List.length (text t))%nat.
Proof.
  induction t as [n | o l IHl r IHr]; cbn [numerals infix text]; intros H.
  - destruct (isNumeral_cons n H) as (c & n' & -> & _). cbn. lia.
  - apply andb_prop in H as [Hl Hr].
    rewrite !length_app. cbn [List.length].
    specialize (IHl Hl). specialize (IHr Hr). lia.
Qed.

(** ** The text of a tree has no space to trim *)

Lemma alphabet_plain (c : ascii) :
  isPointOrDigit c || isMarker c || isSignByte c = true -> plain c = true.
Proof.
  intros H. unfold isMarker, isSignByte in H.
  byte_case c "e"%char; [reflexivity|].
  byte_case c "E"%char; [reflexivity|].
  byte_case c "+"%char; [reflexivity|].
  byte_case c "-"%char; [reflexivity|].
  rewrite !orb_false_r in H. unfold isPointOrDigit in H.
  byte_case c "."%char; [reflexivity|].
  rewrite orb_false_r in H.
  unfold IsDigit, plain, between in *.
  apply andb_prop in H as [H1 H2].
  apply Z.leb_le in H1. apply Z.leb_le in H2.
  apply andb_true_intro. split; apply Z.leb_le; lia.
Qed.

Lemma numeral_plain (n : list ascii) :
  isNumeral n = true -> Forall (fun c => plain c = true) n.
Proof.
  intros H. destruct n as [|c n]; [constructor|].
  destruct (scan_numeral c n [] H I) as [Hc Hscan].
  constructor.
  - apply alphabet_plain. unfold isPointOrDigit. rewrite Hc. reflexivity.
  - pose proof (scanNumber_alphabet false (n ++ [])) as Ha.
    rewrite Hscan in Ha. cbn [fst] in Ha.
    rewrite forallb_forall in Ha. apply Forall_forall.
    intros x Hx. apply alphabet_plain. apply Ha. assumption.
Qed.

Lemma text_plain (t : expr) :
  numerals t = true -> Forall (fun c => plain c = true) (text t).
Proof.
  induction t as [n | o l IHl r IHr]; cbn [numerals text]; intros H.
  - apply numeral_plain. assumption.
  - apply andb_prop in H as [Hl Hr]. apply Forall_app. split; [auto|].
    constructor; [destruct o; reflexivity | auto].
Qed.

Lemma plain_code (c : ascii) : plain c = true -> 33 <= code c <= 126.
Proof.
  unfold plain, between. intros H. apply andb_prop in H as [H1 H2].
  apply Z.leb_le in H1. apply Z.leb_le in H2. lia.
Qed.

Lemma spaceLen_plain_first (b1 : Z) (b2 b3 : option Z) :
  33 <= b1 <= 126 -> spaceLen b1 b2 b3 = 0%nat.
Proof.
  intros H. unfold spaceLen.
  repeat match goal with
         | |- context [(?a <=? ?b)] => destruct (Z.leb_spec a b); try lia
         | |- context [(?a =? ?b)] => destruct (Z.eqb_spec a b); try lia
         end; cbn; destruct b2 as [b2|]; try reflexivity;
    destruct b3 as [b3|]; reflexivity.
Qed.

Lemma spaceLen_plain_second (b1 b2 : Z) :
  33 <= b2 <= 126 -> (spaceLen b1 (Some b2) None =? 2)%nat = false.
Proof.
  intros H. unfold spaceLen.
  repeat match goal with
         | |- context [(?a <=? ?b)] => destruct (Z.leb_spec a b); try lia
         | |- context [(?a =? ?b)] => destruct (Z.eqb_spec a b); try lia
         end; reflexivity.
Qed.

Lemma spaceLen_plain_third (b1 b2 b3 : Z) :
  33 <= b3 <= 126 -> (spaceLen b1 (Some b2) (Some b3) =? 3)%nat = false.
Proof.
  intros H. unfold spaceLen.
  destruct ((9 <=? b1) && (b1 <=? 13) || (b1 =? 32)); [reflexivity|].
  destruct ((b1 =? 194) && ((b2 =? 133) || (b2 =? 160))); [reflexivity|].
  repeat match goal with
         | |- context [(?a <=? b3)] => destruct (Z.leb_spec a b3); try lia
         | |- context [(b3 <=? ?b)] => destruct (Z.leb_spec b3 b); try lia
         | |- context [(b3 =? ?b)] => destruct (Z.eqb_spec b3 b); try lia
         end; cbn; rewrite ?andb_false_r, ?orb_false_r; reflexivity.
Qed.

Lemma trimLeft_plain (c : ascii) (s : list ascii) :
  plain c = true -> trimLeft (c :: s) = c :: s.
Proof.
  intros H. apply plain_code in H. cbn [trimLeft].
  destruct s as [|b [|d s]]; rewrite spaceLen_plain_first by assumption;
    reflexivity.
Qed.

Lemma trimRightRev_plain (c : ascii) (r : list ascii) :
  plain c = true -> trimRightRev (c :: r) = c :: r.
Proof.
  intros H. apply plain_code in H. cbn [trimRightRev].
  rewrite spaceLen_plain_first by assumption. cbn [Nat.eqb].
  destruct r as [|b r]; [reflexivity|].
  rewrite spaceLen_plain_second by assumption.
  destruct r as [|d r]; [reflexivity|].
  rewrite spaceLen_plain_third by assumption. reflexivity.
Qed.

Lemma TrimSpace_plain (s : list ascii) :
  Forall (fun c => plain c = true) s -> TrimSpace s = s.
Proof.
  intros H. unfold TrimSpace. destruct s as [|c s]; [reflexivity|].
  rewrite trimLeft_plain by (inversion H; assumption).
  apply Forall_rev in H.
  destruct (rev (c :: s)) as [|a r] eqn:E.
  - apply (f_equal (@rev ascii)) in E. rewrite rev_involutive in E.
    discriminate E.
  - rewrite trimRightRev_plain by (inversion H; assumption).
    rewrite <- E. apply rev_involutive.
Qed.

(** The lexer turns the text of a tree into its infix tokens. *)
Lemma tokenize_text (t : expr) :
  numerals t = true ->
  tokenize (string_of_list_ascii (text t)) = Ok (infix t).
Proof.
  intros H. unfold tokenize.
  rewrite list_ascii_of_string_of_list_ascii.
  rewrite (TrimSpace_plain _ (text_plain t H)).
  pose proof (text_length t H) as Hlen.
  replace (List.length (text t))
    with (List.length (infix t) + (List.length (text t) - List.length (infix t)))%nat
    by lia.
  rewrite <- (app_nil_r (text t)) at 2.
  rewrite (tokenize_tree t H _ [] tOp [] I).
  destruct (_ - _)%nat; reflexivity.
Qed.

(** ** The parser on the tokens of a tree *)

Lemma bind_assoc {A B C : Type} (r : result A) (f : A -> result B)
    (g : B -> result C) :
  bind (bind r f) g = bind r (fun a => bind (f a) g).
Proof. destruct r; reflexivity. Qed.

(** The test of lines 208-209 on two binary operators. *)
Lemma yields_binop (top curr : binop) :
  yields (val (opToken top)) (val (opToken curr))
  = (leftBound curr <=? level top).
Proof. destruct top, curr; reflexivity. Qed.

Lemma bounds_apart (s r : binop) :
  rightBound s <= level r -> (leftBound r <=? level s) = false.
Proof.
  intros H. apply Z.leb_gt.
  destruct s, r; cbv in H |- *; try reflexivity; congruence.
Qed.

(** An operator that the top of the stack does not yield to is pushed. *)
Lemma shuntStep_push (r : binop) (m : Z) (output stack : list token) :
  stackBelow m stack -> m <= level r ->
  shuntStep (opToken r) output stack = Ok (output, opToken r :: stack).
Proof.
  intros Hst Hm. unfold shuntStep. cbn [typ opToken].
  destruct stack as [|top stack]; [reflexivity|].
  destruct Hst as (s & -> & Hs). cbn [popOps].
  change (val (Token tOp (String (symbol r) EmptyString)))
    with (val (opToken r)).
  rewrite yields_binop, bounds_apart by lia. reflexivity.
Qed.

(** An operator that closes level [m] first moves a stacked operator of
    level [m] or more to the output. *)
Lemma shuntLoop_close (r : binop) (m : Z) (rest output stack : list token) :
  closedBy m rest -> m <= level r ->
  (st <- shuntLoop rest output (opToken r :: stack) ;; drain (fst st) (snd st))
  = (st <- shuntLoop rest (output ++ [opToken r]) stack ;;
     drain (fst st) (snd st)).
Proof.
  intros Hcl Hm. destruct rest as [|t rest]; [reflexivity|].
  destruct Hcl as (o & -> & Ho). cbn [shuntLoop]. unfold shuntStep.
  cbn [typ opToken popOps tokenType_eqb andb].
  change (val (Token tOp (String (symbol o) EmptyString)))
    with (val (opToken o)).
  change (val (Token tOp (String (symbol r) EmptyString)))
    with (val (opToken r)).
  rewrite yields_binop.
  destruct (Z.leb_spec (leftBound o) (level r)); [reflexivity | lia].
Qed.

Lemma level_bounds (o : binop) :
  level o <= leftBound o /\ level o <= rightBound o.
Proof. destruct o; cbv; split; congruence. Qed.

Lemma stackBelow_le (m m' : Z) (stack : list token) :
  stackBelow m stack -> m <= m' -> stackBelow m' stack.
Proof.
  destruct stack as [|top stack]; [trivial|].
  intros (s & -> & Hs) Hm. exists s. split; [reflexivity | lia].
Qed.

Lemma closedBy_le (m m' : Z) (rest : list token) :
  closedBy m rest -> m <= m' -> closedBy m' rest.
Proof.
  destruct rest as [|t rest]; [trivial|].
  intros (o & -> & Ho) Hm. exists o. split; [reflexivity | lia].
Qed.

(** Reading the tokens of a tree moves its postfix form to the output,
    once the next operator (or the end of the tokens) has moved the
    operators it left on the stack. *)
Lemma shunt_tree (t : expr) :
  forall m rest output stack,
  fits m t = true -> stackBelow m stack -> closedBy m rest ->
  (st <- shuntLoop (infix t ++ rest) output stack ;; drain (fst st) (snd st))
  = (st <- shuntLoop rest (output ++ postfix t) stack ;;
     drain (fst st) (snd st)).
Proof.
  induction t as [n | r l IHl rt IHrt];
    intros m rest output stack Hfit Hst Hcl.
  - reflexivity.
  - cbn [fits] in Hfit.
    apply andb_prop in Hfit as [Hfit Hfr].
    apply andb_prop in Hfit as [Hm Hfl]. apply Z.leb_le in Hm.
    destruct (level_bounds r) as [Hlb Hrb].
    cbn [infix postfix]. rewrite <- app_assoc. cbn [app].
    rewrite (IHl (leftBound r));
      [ | assumption | apply (stackBelow_le m); [assumption | lia]
        | exists r; split; [reflexivity | lia] ].
    cbn [shuntLoop].
    rewrite (shuntStep_push r m) by assumption. cbn [bind fst snd].
    rewrite (IHrt (rightBound r));
      [ | assumption | exists r; split; [reflexivity | lia]
        | apply (closedBy_le m); [assumption | lia] ].
    rewrite (shuntLoop_close r m) by assumption.
    rewrite <- !app_assoc. reflexivity.
Qed.

Lemma checkFuncs_postfix (t : expr) (output : list token) :
  checkFuncs output = Ok tt -> checkFuncs (output ++ postfix t) = Ok tt.
Proof.
  revert output.
  assert (Happ : forall a b, checkFuncs a = Ok tt -> checkFuncs b = Ok tt ->
                             checkFuncs (a ++ b) = Ok tt).
  { induction a as [|x a IH]; intros b Ha Hb; [assumption|].
    cbn [app checkFuncs] in *.
    destruct (tokenType_eqb (typ x) tFunc && negb (hasKey (val x) arity));
      [discriminate Ha | auto]. }
  induction t as [n | o l IHl r IHr]; intros output Hout; cbn [postfix].
  - apply Happ; [assumption | reflexivity].
  - rewrite !app_assoc. apply Happ; [|reflexivity].
    rewrite <- app_assoc. rewrite app_assoc. apply IHr. apply IHl. assumption.
Qed.

(** The parser turns the infix tokens of a tree that fits into its
    postfix form. *)
Lemma shuntingYard_infix (t : expr) :
  fits 1 t = true -> shuntingYard (infix t) = Ok (postfix t).
Proof.
  intros Hfit. unfold shuntingYard.
  rewrite <- bind_assoc.
  rewrite <- (app_nil_r (infix t)).
  rewrite (shunt_tree t 1 [] [] [] Hfit I I).
  cbn [shuntLoop bind fst snd drain app].
  pose proof (checkFuncs_postfix t [] eq_refl) as Hc. cbn [app] in Hc.
  rewrite Hc. reflexivity.
Qed.

(** ** The evaluator on the postfix form of a tree *)

Lemma evalStep_binop (ans : float) (o : binop) (a b : float)
    (st : list float) :
  evalStep ans (opToken o) (b :: a :: st)
  = (res <- applyOp o a b ;; Ok (res :: st)).
Proof.
  destruct o; try reflexivity.
  unfold evalStep, applyOp. cbn.
  destruct (b =? 0)%float; reflexivity.
Qed.

Lemma evalLoop_postfix (ans : float) (t : expr) :
  forall rest st,
  evalLoop ans (postfix t ++ rest) st
  = (v <- evalTree t ;; evalLoop ans rest (v :: st)).
Proof.
  induction t as [n | o l IHl r IHr]; intros rest st.
  - cbn [postfix app evalLoop evalTree]. unfold evalStep. cbn [typ val].
    destruct (ParseFloat (string_of_list_ascii n)); reflexivity.
  - cbn [postfix evalTree]. rewrite <- !app_assoc. rewrite IHl.
    rewrite bind_assoc.
    destruct (evalTree l) as [a| |]; cbn [bind]; try reflexivity.
    rewrite IHr. rewrite bind_assoc.
    destruct (evalTree r) as [b| |]; cbn [bind]; try reflexivity.
    cbn [app evalLoop]. rewrite evalStep_binop.
    destruct (applyOp o a b); reflexivity.
Qed.

Lemma evalRPN_postfix (ans : float) (t : expr) :
  evalRPN (postfix t) ans = evalTree t.
Proof.
  unfold evalRPN. rewrite <- (app_nil_r (postfix t)).
  rewrite evalLoop_postfix. destruct (evalTree t); reflexivity.
Qed.

(** ** Every flat text is the text of a tree that fits *)

Lemma attach_text (t : expr) (o : binop) (n : list ascii) :
  text (attach t o n) = text t ++ symbol o :: n.
Proof.
  induction t as [n0 | o' l IHl r IHr]; [reflexivity|].
  cbn [attach]. destruct (rightBound o' <=? level o); [|reflexivity].
  cbn [text]. rewrite IHr, <- app_assoc. reflexivity.
Qed.

Lemma attach_numerals (t : expr) (o : binop) (n : list ascii) :
  numerals t = true -> isNumeral n = true -> numerals (attach t o n) = true.
Proof.
  intros Ht Hn. induction t as [n0 | o' l IHl r IHr].
  - cbn. cbn in Ht. rewrite Ht, Hn. reflexivity.
  - cbn [attach]. cbn [numerals] in Ht. apply andb_prop in Ht as [Hl Hr].
    destruct (rightBound o' <=? level o); cbn [numerals].
    + rewrite Hl, (IHr Hr). reflexivity.
    + rewrite Hl, Hr, Hn. reflexivity.
Qed.

Lemma fits_le (t : expr) (m m' : Z) :
  fits m t = true -> m' <= m -> fits m' t = true.
Proof.
  destruct t as [n | o l r]; [reflexivity|]. cbn [fits]. intros H Hm.
  apply andb_prop in H as [H Hr]. apply andb_prop in H as [Ho Hl].
  apply Z.leb_le in Ho. rewrite Hl, Hr.
  destruct (Z.leb_spec m' (level o)); [reflexivity | lia].
Qed.

Lemma fits_Bin (m : Z) (o : binop) (l r : expr) :
  fits m (Bin o l r)
  = (m <=? level o) && fits (leftBound o) l && fits (rightBound o) r.
Proof. reflexivity. Qed.

Lemma attach_fits (t : expr) (o : binop) (n : list ascii) :
  forall m, fits m t = true -> m <= level o -> fits m (attach t o n) = true.
Proof.
  induction t as [n0 | o' l IHl r IHr]; intros m Hfit Hm.
  - cbn. destruct (Z.leb_spec m (level o)); [reflexivity | lia].
  - cbn [attach]. pose proof Hfit as Hfit'. cbn [fits] in Hfit.
    apply andb_prop in Hfit as [Hfit Hfr].
    apply andb_prop in Hfit as [Ho' Hfl].
    destruct (Z.leb_spec (rightBound o') (level o)) as [Hle | Hgt].
    + cbn [fits]. rewrite Ho', Hfl. apply IHr; assumption.
    + assert (Hl : fits (leftBound o) (Bin o' l r) = true).
      { apply (fits_le _ (level o')).
        - cbn [fits]. rewrite Hfl, Hfr, Z.leb_refl. reflexivity.
        - destruct o, o'; cbv in Hgt |- *; congruence. }
      rewrite fits_Bin, Hl. cbn [fits]. rewrite !andb_true_r.
      apply Z.leb_le. assumption.
Qed.

Lemma treeOf_flat (rest : list (binop * list ascii)) :
  forall t,
  fits 1 t = true -> numerals t = true ->
  forallb (fun p => isNumeral (snd p)) rest = true ->
  let t' := fold_left (fun t p => attach t (fst p) (snd p)) rest t in
  fits 1 t' = true /\ numerals t' = true
  /\ text t' = text t ++ flat_map (fun p => symbol (fst p) :: snd p) rest.
Proof.
  induction rest as [|[o n] rest IH]; intros t Hfit Hnum Hrest.
  - cbn. rewrite app_nil_r. auto.
  - cbn [forallb snd] in Hrest. apply andb_prop in Hrest as [Hn Hrest].
    cbn [fold_left flat_map fst snd].
    destruct (IH (attach t o n)) as (H1 & H2 & H3).
    + apply attach_fits; [assumption | destruct o; cbv; congruence].
    + apply attach_numerals; assumption.
    + assumption.
    + split; [exact H1|]. split; [exact H2|].
      rewrite H3, attach_text, <- app_assoc. reflexivity.
Qed.

(** C1: for every expression built from numerals and the binary operators
    [+ - * / ^], written without parentheses, the pipeline ([tokenize], then
    [shuntingYard], then [evalRPN]) returns the value of the tree that the
    usual levels and grouping give its text ([* /] above [+ -], [^] above
    both and grouping to the right, the others to the left), whatever the
    previous answer; every text [n0 o1 n1 ... ok nk] is the text of such a
    tree.  "2+2*3" evaluates to 8, "10-3-2" to 5, and "2^3^2" to
    [Pow(2, Pow(3, 2))], which is 512 as [math.Pow] gives 9 and 512 for the
    two powers. *)
Theorem pipeline_arithmetic :
  (forall t ans,
     fits 1 t = true -> numerals t = true ->
     evalExpr (string_of_list_ascii (text t)) ans = evalTree t)
  /\ (forall n0 rest,
        isNumeral n0 = true ->
        forallb (fun p => isNumeral (snd p)) rest = true ->
        fits 1 (treeOf n0 rest) = true
        /\ numerals (treeOf n0 rest) = true
        /\ text (treeOf n0 rest) = flatText n0 rest)
  /\ (forall ans, evalExpr "2+2*3" ans = Ok 8%float)
  /\ (forall ans, evalExpr "10-3-2" ans = Ok 5%float)
  /\ (forall ans,
        evalExpr "2^3^2" ans = Ok (math_Pow 2 (math_Pow 3 2))
        /\ (math_Pow 3 2 = 9%float -> math_Pow 2 9 = 512%float ->
            evalExpr "2^3^2" ans = Ok 512%float)).
Proof.
  split; [|split; [|split; [|split]]].
  - intros t ans Hfit Hnum. unfold evalExpr.
    rewrite (tokenize_text t Hnum). cbn [bind].
    rewrite (shuntingYard_infix t Hfit). cbn [bind].
    apply evalRPN_postfix.
  - intros n0 rest Hn0 Hrest. unfold treeOf, flatText.
    apply (treeOf_flat rest (Num n0)); [reflexivity | assumption | assumption].
  - intros ans. vm_compute. reflexivity.
  - intros ans. vm_compute. reflexivity.
  - intros ans.
    assert (H : evalExpr "2^3^2" ans = Ok (math_Pow 2 (math_Pow 3 2)))
      by (vm_compute; reflexivity).
    split; [exact H|]. intros H32 H29. rewrite H, H32, H29. reflexivity.
Qed.

End Pipeline.

(** * Further properties *)

(** ** Facts about all bytes *)

Lemma allBytes_spec (P : ascii -> bool) :
  forallb P allBytes = true -> forall c, P c = true.
Proof.
  intros H c. rewrite forallb_forall in H. apply H. unfold allBytes.
  rewrite <- (ascii_nat_embedding c). apply in_map. apply in_seq.
  pose proof (nat_ascii_bounded c). lia.
Qed.

Lemma ident_not_space (c : ascii) : isIdent c = true -> IsSpace c = false.
Proof.
  intros H.
  pose proof (allBytes_spec (fun c => implb (isIdent c) (negb (IsSpace c)))
                eq_refl c) as Hc.
  cbv beta in Hc. rewrite H in Hc. cbn in Hc.
  destruct (IsSpace c); [discriminate Hc | reflexivity].
Qed.

Lemma plain_not_space (c : ascii) : plain c = true -> IsSpace c = false.
Proof.
  intros H.
  pose proof (allBytes_spec (fun c => implb (plain c) (negb (IsSpace c)))
                eq_refl c) as Hc.
  cbv beta in Hc. rewrite H in Hc. cbn in Hc.
  destruct (IsSpace c); [discriminate Hc | reflexivity].
Qed.

Lemma lowerByte_idem (c : ascii) : lowerByte (lowerByte c) = lowerByte c.
Proof.
  apply Ascii.eqb_eq.
  apply (allBytes_spec
           (fun c => Ascii.eqb (lowerByte (lowerByte c)) (lowerByte c))).
  vm_compute. reflexivity.
Qed.

Lemma map_lowerByte_idem (s : list ascii) :
  map lowerByte (map lowerByte s) = map lowerByte s.
Proof.
  rewrite map_map. apply map_ext. apply lowerByte_idem.
Qed.

Lemma identStart_ident (c : ascii) : isIdentStart c = true -> isIdent c = true.
Proof.
  unfold isIdentStart, isIdent. intros H.
  destruct (IsLetter c); [reflexivity|]. cbn in H |- *. rewrite H.
  apply orb_true_r.
Qed.

Lemma scanIdent_ident (s : list ascii) :
  forallb isIdent (fst (scanIdent s)) = true.
Proof.
  functional induction (scanIdent s); try reflexivity.
  rewrite e1 in IHp. cbn [fst forallb] in *. rewrite e0. assumption.
Qed.

Lemma scanIdent_stops (s : list ascii) :
  match snd (scanIdent s) with [] => true | c :: _ => negb (isIdent c) end
  = true.
Proof.
  functional induction (scanIdent s); try reflexivity.
  - rewrite e1 in IHp. assumption.
  - cbn [snd]. rewrite e0. reflexivity.
Qed.

Section LexerOutput.

Context {M : GoMath}.

(** The keys of [arity] are the keys of [functions]. *)
Lemma arity_keys (name : string) : hasKey name arity = hasKey name functions.
Proof.
  unfold hasKey, arity, functions. cbn [lookup].
  repeat match goal with
         | |- context [String.eqb name ?k] =>
           destruct (String.eqb name k); [reflexivity|]
         end.
  reflexivity.
Qed.

(** ** One turn of the lexer, in full *)

Lemma tokenizeLoop_step (fuel : nat) (ch : ascii) (s' : list ascii)
    (p : tokenType) (toks : list token) :
  (IsSpace ch = true
   /\ tokenizeLoop (S fuel) (ch :: s') p toks = tokenizeLoop fuel s' p toks)
  \/ (IsSpace ch = false
      /\ exists t p' src rest,
        ch :: s' = src ++ rest
        /\ lexeme rest src
        /\ forallb notSpace src = true
        /\ map lowerByte (tokenSource t) = map lowerByte src
        /\ tokenOk t = true
        /\ tokenizeLoop (S fuel) (ch :: s') p toks
           = tokenizeLoop fuel rest p' (toks ++ [t]))
  \/ (IsSpace ch = false
      /\ exists e,
        lexError (ch :: s') e
        /\ tokenizeLoop (S fuel) (ch :: s') p toks = Some (Err e)).
Proof.
  cbn [tokenizeLoop].
  destruct (IsSpace ch) eqn:Hsp; [left; split; reflexivity|]. right.
  assert (Hns : notSpace ch = true) by (unfold notSpace; rewrite Hsp; reflexivity).
  destruct (IsDigit ch || Ascii.eqb ch ".") eqn:Hd.
  { left. split; [reflexivity|].
    pose proof (scanNumber_split false s') as Hsplit.
    pose proof (scanNumber_alphabet false s') as Hal.
    pose proof (numberShape_scanned ch s' Hd) as Hshape.
    destruct (scanNumber false s') as [num rest] eqn:Hscan.
    cbn [fst snd] in *.
    exists (Token tNumber (string_of_list_ascii (ch :: num))), tNumber,
      (ch :: num), rest.
    split; [cbn [app]; rewrite Hsplit; reflexivity|].
    split; [left; split; [exact Hd | rewrite Hsplit; exact Hscan]|].
    split.
    { cbn [forallb]. rewrite Hns. cbn [andb].
      apply forallb_forall. intros x Hx. rewrite forallb_forall in Hal.
      unfold notSpace. rewrite (plain_not_space x); [reflexivity|].
      apply alphabet_plain. apply Hal. assumption. }
    split.
    { unfold tokenSource. cbn [typ val].
      rewrite list_ascii_of_string_of_list_ascii. reflexivity. }
    split; [exact Hshape | reflexivity]. }
  destruct (Ascii.eqb ch "+" || Ascii.eqb ch "-") eqn:Hs.
  { left. split; [reflexivity|].
    eexists _, tOp, [ch], s'. split; [reflexivity|].
    split; [right; left; split; [reflexivity|];
            unfold isPunct, isSignByte; rewrite Hs; reflexivity|].
    split; [cbn [forallb]; rewrite Hns; reflexivity|].
    split; [|split; [|reflexivity]];
      destruct (tokenType_eqb p tOp || tokenType_eqb p tLParen
                || (List.length toks =? 0)%nat);
      byte_case ch "-"%char; try reflexivity;
      byte_case ch "+"%char; try reflexivity; discriminate Hs. }
  destruct (Ascii.eqb ch "*" || Ascii.eqb ch "/" || Ascii.eqb ch "^") eqn:Ho.
  { left. split; [reflexivity|].
    eexists _, tOp, [ch], s'. split; [reflexivity|].
    split; [right; left; split; [reflexivity|];
            unfold isPunct;
            destruct (Ascii.eqb ch "*"), (Ascii.eqb ch "/"),
              (Ascii.eqb ch "^"); try discriminate Ho;
            rewrite ?orb_true_r; reflexivity|].
    split; [cbn [forallb]; rewrite Hns; reflexivity|].
    split; [|split; [|reflexivity]];
      byte_case ch "*"%char; try reflexivity;
      byte_case ch "/"%char; try reflexivity;
      byte_case ch "^"%char; try reflexivity; discriminate Ho. }
  destruct (Ascii.eqb ch "(") eqn:Hlp.
  { left. split; [reflexivity|]. apply Ascii.eqb_eq in Hlp. subst ch.
    eexists _, tLParen, ["("%char], s'.
    split; [reflexivity|].
    split; [right; left; split; reflexivity|]. repeat split; reflexivity. }
  destruct (Ascii.eqb ch ")") eqn:Hrp.
  { left. split; [reflexivity|]. apply Ascii.eqb_eq in Hrp. subst ch.
    eexists _, tRParen, [")"%char], s'.
    split; [reflexivity|].
    split; [right; left; split; reflexivity|]. repeat split; reflexivity. }
  destruct (Ascii.eqb ch ",") eqn:Hco.
  { left. split; [reflexivity|]. apply Ascii.eqb_eq in Hco. subst ch.
    eexists _, tComma, [","%char], s'.
    split; [reflexivity|].
    split; [right; left; split; reflexivity|]. repeat split; reflexivity. }
  destruct (isIdentStart ch) eqn:Hid.
  2:{ right. split; [reflexivity|]. eexists. split; [|reflexivity].
      left. exists ch, s'. split; [reflexivity|]. split; [|reflexivity].
      unfold isLexable, isPointOrDigit, isSignByte.
      rewrite Hsp, Hd, Hs, Hlp, Hrp, Hco, Hid.
      cbn [orb]. rewrite !orb_false_r. exact Ho. }
  pose proof (scanIdent_split s') as Hsplit.
  pose proof (scanIdent_ident s') as Hall.
  pose proof (scanIdent_stops s') as Hstop.
  destruct (scanIdent s') as [id' rest]. cbn [fst snd] in *. cbv zeta.
  assert (Hsrc : forallb notSpace (ch :: id') = true).
  { cbn [forallb]. rewrite Hns. cbn [andb].
    apply forallb_forall. intros x Hx. rewrite forallb_forall in Hall.
    unfold notSpace. rewrite (ident_not_space x (Hall x Hx)). reflexivity. }
  assert (Hlow : forall ty,
             map lowerByte
               (tokenSource
                  (Token ty (string_of_list_ascii (ToLower (ch :: id')))))
             = map lowerByte (ch :: id') \/ ty = tOp).
  { intros ty. destruct ty; [left|right; reflexivity|left..];
      unfold tokenSource; cbn [typ val];
      rewrite list_ascii_of_string_of_list_ascii;
      apply map_lowerByte_idem. }
  destruct (hasKey _ functions) eqn:Hf.
  { left. split; [reflexivity|].
    eexists _, tIdent, (ch :: id'), rest.
    split; [cbn [app]; rewrite Hsplit; reflexivity|].
    split; [right; right; repeat (split; [assumption|]);
            unfold knownName; rewrite Hf; reflexivity|].
    split; [exact Hsrc|].
    split; [destruct (Hlow tFunc) as [H|H]; [exact H | discriminate H]|].
    split; [|reflexivity].
    unfold tokenOk. cbn [typ val]. rewrite arity_keys, Hf. reflexivity. }
  destruct (hasKey _ constants || String.eqb _ "ans") eqn:Hc.
  { left. split; [reflexivity|].
    eexists _, tIdent, (ch :: id'), rest.
    split; [cbn [app]; rewrite Hsplit; reflexivity|].
    split; [right; right; repeat (split; [assumption|]);
            unfold knownName; rewrite Hf; cbn [orb]; exact Hc|].
    split; [exact Hsrc|].
    split; [destruct (Hlow tIdent) as [H|H]; [exact H | discriminate H]|].
    split; [exact Hc | reflexivity]. }
  right. split; [reflexivity|]. eexists. split; [|reflexivity].
  right. exists ch, id', rest.
  split; [rewrite Hsplit; reflexivity|].
  split; [exact Hid|]. split; [exact Hall|]. split; [exact Hstop|].
  split; [|reflexivity].
  unfold knownName. rewrite Hf. cbn [orb]. exact Hc.
Qed.

End LexerOutput.


Section LexerResults.

Context {M : GoMath}.

Lemma tokenizeLoop_tokens_ok (fuel : nat) :
  forall s p toks r,
  tokenizeLoop fuel s p toks = Some (Ok r) ->
  forallb tokenOk toks = true -> forallb tokenOk r = true.
Proof.
  induction fuel as [|fuel IH]; intros s p toks r H Hok.
  - destruct s; [|discriminate]. injection H as <-. assumption.
  - destruct s as [|ch s']. { injection H as <-. assumption. }
    destruct (tokenizeLoop_step fuel ch s' p toks)
      as [[_ E] | [[_ (t & p' & src & rest & _ & _ & _ & _ & Ht & E)]
                  | [_ (e & _ & E)]]]; rewrite E in H.
    + eapply IH; eassumption.
    + eapply IH; [eassumption|].
      rewrite forallb_app, Hok. cbn. rewrite Ht. reflexivity.
    + discriminate.
Qed.

(** Every token of an accepted line has a payload that fits its type: an
    operator token holds a key of [ops], a function token a key of
    [functions] and of [arity], an identifier token ["ans"] or a key of
    [constants], a Number token a text of the numeral shape, and the three
    punctuation tokens their own byte. *)
Theorem tokenize_tokens_ok (input : string) (toks : list token) :
  tokenize input = Ok toks -> forallb tokenOk toks = true.
Proof.
  unfold tokenize. intros H.
  destruct (tokenizeLoop _ _ _ _) as [r|] eqn:E; [|discriminate].
  subst r. eapply tokenizeLoop_tokens_ok; [eassumption | reflexivity].
Qed.

Lemma filter_notSpace_app (src rest : list ascii) :
  forallb notSpace src = true ->
  filter notSpace (src ++ rest) = src ++ filter notSpace rest.
Proof.
  intros H. rewrite filter_app. f_equal.
  induction src as [|c src IH]; [reflexivity|].
  cbn [forallb] in H. apply andb_prop in H as [Hc H].
  cbn [filter]. rewrite Hc, (IH H). reflexivity.
Qed.

Lemma tokenizeLoop_source (fuel : nat) :
  forall s p toks r,
  tokenizeLoop fuel s p toks = Some (Ok r) ->
  map lowerByte (flat_map tokenSource r)
  = map lowerByte (flat_map tokenSource toks)
    ++ map lowerByte (filter notSpace s).
Proof.
  induction fuel as [|fuel IH]; intros s p toks r H.
  - destruct s; [|discriminate]. injection H as <-. cbn. rewrite app_nil_r.
    reflexivity.
  - destruct s as [|ch s'].
    { injection H as <-. cbn. rewrite app_nil_r. reflexivity. }
    destruct (tokenizeLoop_step fuel ch s' p toks)
      as [[Hsp E] | [[_ (t & p' & src & rest & Hs & _ & Hns & Hsrc & _ & E)]
                    | [_ (e & _ & E)]]]; rewrite E in H.
    + rewrite (IH _ _ _ _ H). cbn [filter]. unfold notSpace at 2.
      rewrite Hsp. reflexivity.
    + rewrite (IH _ _ _ _ H). rewrite Hs, (filter_notSpace_app _ _ Hns).
      rewrite flat_map_app. cbn [flat_map]. rewrite app_nil_r.
      rewrite !map_app, Hsrc, <- app_assoc. reflexivity.
    + discriminate.
Qed.

(** The tokens of an accepted line spell the line: up to the case of
    letters, their sources in order are the trimmed line without its
    spaces.  Nothing but spaces is dropped and nothing is added. *)
Theorem tokenize_spells_input (input : string) (toks : list token) :
  tokenize input = Ok toks ->
  map lowerByte (flat_map tokenSource toks)
  = map lowerByte
      (filter notSpace (TrimSpace (list_ascii_of_string input))).
Proof.
  unfold tokenize. intros H.
  destruct (tokenizeLoop _ _ _ _) as [r|] eqn:E; [|discriminate].
  subst r. apply (tokenizeLoop_source _ _ _ _ _ E).
Qed.

(** ** Where the lexer stops *)

Lemma identStart_class (ch : ascii) :
  isIdentStart ch = true ->
  IsSpace ch = false
  /\ IsDigit ch || Ascii.eqb ch "." = false
  /\ Ascii.eqb ch "+" || Ascii.eqb ch "-" = false
  /\ Ascii.eqb ch "*" || Ascii.eqb ch "/" || Ascii.eqb ch "^" = false
  /\ Ascii.eqb ch "(" = false
  /\ Ascii.eqb ch ")" = false
  /\ Ascii.eqb ch "," = false.
Proof.
  intros H.
  assert (Hall : forallb
            (fun c => implb (isIdentStart c)
               (negb (IsSpace c)
                && negb (IsDigit c || Ascii.eqb c ".")
                && negb (Ascii.eqb c "+" || Ascii.eqb c "-")
                && negb (Ascii.eqb c "*" || Ascii.eqb c "/"
                         || Ascii.eqb c "^")
                && negb (Ascii.eqb c "(")
                && negb (Ascii.eqb c ")")
                && negb (Ascii.eqb c ","))) allBytes = true)
    by (vm_compute; reflexivity).
  pose proof (allBytes_spec _ Hall ch) as Hc. cbv beta in Hc.
  rewrite H in Hc. cbn [implb] in Hc.
  repeat match goal with
         | Hx : _ && _ = true |- _ => apply andb_prop in Hx as [? ?]
         end.
  repeat match goal with
         | Hx : negb _ = true |- _ => apply negb_true_iff in Hx
         end.
  repeat split; assumption.
Qed.

Lemma scanIdent_run (id rest : list ascii) :
  forallb isIdent id = true ->
  match rest with [] => true | c :: _ => negb (isIdent c) end = true ->
  scanIdent (id ++ rest) = (id, rest).
Proof.
  intros Hall Hstop. induction id as [|c id IH].
  - destruct rest as [|c rest]; [reflexivity|]. cbn [app scanIdent].
    apply negb_true_iff in Hstop. rewrite Hstop. reflexivity.
  - cbn [forallb] in Hall. apply andb_prop in Hall as [Hc Hall].
    cbn [app scanIdent]. rewrite Hc, (IH Hall). reflexivity.
Qed.

(** What [lexError] describes stops the loop with its error. *)
Lemma lexError_turn (s : list ascii) (e : error) :
  lexError s e ->
  forall fuel p toks, tokenizeLoop (S fuel) s p toks = Some (Err e).
Proof.
  intros [(ch & rest & -> & Hl & ->)
         | (ch & id & rest & -> & Hid & Hall & Hstop & Hk & ->)];
    intros fuel p toks; cbn [tokenizeLoop].
  - unfold isLexable, isPointOrDigit, isSignByte in Hl.
    destruct (IsSpace ch); [discriminate Hl|].
    destruct (IsDigit ch || Ascii.eqb ch "."); [discriminate Hl|].
    destruct (Ascii.eqb ch "+" || Ascii.eqb ch "-"); [discriminate Hl|].
    cbn [orb] in Hl.
    destruct (Ascii.eqb ch "*"); [discriminate Hl|].
    destruct (Ascii.eqb ch "/"); [discriminate Hl|].
    destruct (Ascii.eqb ch "^"); [discriminate Hl|].
    destruct (Ascii.eqb ch "("); [discriminate Hl|].
    destruct (Ascii.eqb ch ")"); [discriminate Hl|].
    destruct (Ascii.eqb ch ","); [discriminate Hl|].
    cbn [orb] in Hl |- *. rewrite Hl. reflexivity.
  - destruct (identStart_class ch Hid)
      as (Hsp & Hd & Hs & Ho & Hlp & Hrp & Hco).
    rewrite Hsp, Hd, Hs, Ho, Hlp, Hrp, Hco, Hid.
    rewrite (scanIdent_run id rest Hall Hstop). cbv zeta.
    unfold knownName in Hk.
    apply orb_false_elim in Hk as [Hk Ha].
    apply orb_false_elim in Hk as [Hf Hc].
    rewrite Hf, Hc, Ha. reflexivity.
Qed.

(** The text of a token is taken whole by one turn of the loop. *)
Lemma lexeme_turn (rest src : list ascii) :
  lexeme rest src ->
  forall fuel p toks,
  exists p' toks',
    tokenizeLoop (S fuel) (src ++ rest) p toks
    = tokenizeLoop fuel rest p' toks'.
Proof.
  destruct src as [|ch body]; [contradiction|].
  intros [[Hd Hscan] | [[-> Hp] | (Hid & Hall & Hstop & Hk)]]
    fuel p toks; cbn [app tokenizeLoop].
  - rewrite (plain_not_space ch)
      by (apply alphabet_plain; rewrite Hd; reflexivity).
    unfold isPointOrDigit in Hd. rewrite Hd, Hscan.
    eexists _, _. reflexivity.
  - unfold isPunct, isSignByte in Hp.
    byte_case ch "+"%char; [eexists _, _; reflexivity|].
    byte_case ch "-"%char; [eexists _, _; reflexivity|].
    byte_case ch "*"%char; [eexists _, _; reflexivity|].
    byte_case ch "/"%char; [eexists _, _; reflexivity|].
    byte_case ch "^"%char; [eexists _, _; reflexivity|].
    byte_case ch "("%char; [eexists _, _; reflexivity|].
    byte_case ch ")"%char; [eexists _, _; reflexivity|].
    byte_case ch ","%char; [eexists _, _; reflexivity|].
    discriminate Hp.
  - destruct (identStart_class ch Hid)
      as (Hsp & Hd & Hs & Ho & Hlp & Hrp & Hco).
    rewrite Hsp, Hd, Hs, Ho, Hlp, Hrp, Hco, Hid.
    rewrite (scanIdent_run body rest Hall Hstop). cbv zeta.
    unfold knownName in Hk.
    destruct (hasKey _ functions); [eexists _, _; reflexivity|].
    cbn [orb] in Hk. rewrite Hk. eexists _, _. reflexivity.
Qed.

Lemma lexeme_length (rest src : list ascii) :
  lexeme rest src -> (1 <= List.length src)%nat.
Proof.
  destruct src; [contradiction|]. intros _. cbn [List.length]. lia.
Qed.

(** The loop runs through a prefix made of spaces and token texts. *)
Lemma lexed_run (s pre : list ascii) :
  lexed s pre ->
  forall fuel p toks, (List.length (pre ++ s) <= fuel)%nat ->
  exists fuel' p' toks',
    (List.length s <= fuel')%nat
    /\ tokenizeLoop fuel (pre ++ s) p toks = tokenizeLoop fuel' s p' toks'.
Proof.
  induction 1 as [|ch pre Hsp _ IH|src pre Hlx _ IH]; intros fuel p toks Hlen.
  - exists fuel, p, toks. split; [assumption | reflexivity].
  - destruct fuel as [|fuel]; [cbn in Hlen; lia|].
    cbn [app tokenizeLoop]. rewrite Hsp. apply IH. cbn in Hlen. lia.
  - pose proof (lexeme_length _ _ Hlx) as Hsrc.
    rewrite <- app_assoc in Hlen |- *. rewrite length_app in Hlen.
    destruct fuel as [|fuel]; [lia|].
    destruct (lexeme_turn _ _ Hlx fuel p toks) as (p' & toks' & E).
    rewrite E. apply IH. lia.
Qed.

Lemma tokenizeLoop_error (fuel : nat) :
  forall s p toks e,
  tokenizeLoop fuel s p toks = Some (Err e) ->
  exists pre s2, s = pre ++ s2 /\ lexed s2 pre /\ lexError s2 e.
Proof.
  induction fuel as [|fuel IH]; intros s p toks e H.
  - destruct s; discriminate.
  - destruct s as [|ch s']; [discriminate|].
    destruct (tokenizeLoop_step fuel ch s' p toks)
      as [[Hsp E] | [[_ (t & p' & src & rest & Hs & Hlx & _ & _ & _ & E)]
                    | [_ (e' & He & E)]]]; rewrite E in H.
    + destruct (IH _ _ _ _ H) as (pre & s2 & -> & Hp & Hl).
      exists (ch :: pre), s2. split; [reflexivity|].
      split; [apply lexed_space; assumption | assumption].
    + destruct (IH _ _ _ _ H) as (pre & s2 & -> & Hp & Hl).
      exists (src ++ pre), s2. rewrite Hs, <- app_assoc.
      split; [reflexivity|].
      split; [apply lexed_token; assumption | assumption].
    + injection H as <-. exists [], (ch :: s').
      split; [reflexivity|]. split; [apply lexed_nil | assumption].
Qed.

(** [tokenize] fails with [e] exactly when the trimmed line is a prefix
    made of white space and token texts, each taken as far as the lexer
    takes it, followed by what [e] reports: a byte that starts no token,
    reported as the invalid character, or a longest run of identifier
    bytes whose lower-case text is neither a function, a constant nor
    ["ans"], reported in its own spelling as the unknown identifier.  The
    error is that of the first such place. *)
Theorem tokenize_error (input : string) (e : error) :
  tokenize input = Err e
  <-> exists pre s,
        TrimSpace (list_ascii_of_string input) = pre ++ s
        /\ lexed s pre /\ lexError s e.
Proof.
  unfold tokenize. split.
  - intros H. destruct (tokenizeLoop _ _ _ _) as [r|] eqn:E; [|discriminate].
    subst r. apply (tokenizeLoop_error _ _ _ _ _ E).
  - intros (pre & s & -> & Hp & Hl).
    destruct (lexed_run _ _ Hp (List.length (pre ++ s)) tOp []
                (Nat.le_refl _)) as (fuel' & p' & toks' & Hlen & ->).
    destruct fuel' as [|fuel'].
    + destruct Hl as [(ch & rest & -> & _) | (ch & id & rest & -> & _)];
        cbn in Hlen; lia.
    + rewrite (lexError_turn _ _ Hl). reflexivity.
Qed.

End LexerResults.

Section SignRule.

Context {M : GoMath}.










End SignRule.



Section Parser.

Context {M : GoMath}.

(** ** The loops of the parser *)

Lemma popToLParen_spec (stack : list token) :
  forall output,
  exists moved,
    stack = moved ++ snd (popToLParen output stack)
    /\ fst (popToLParen output stack) = output ++ moved
    /\ forallb (fun t => negb (isLParen t)) moved = true
    /\ match snd (popToLParen output stack) with
       | [] => True
       | top :: _ => isLParen top = true
       end.
Proof.
  induction stack as [|top stack IH]; intros output.
  - exists []. cbn. rewrite app_nil_r. auto.
  - cbn [popToLParen]. fold (isLParen top).
    destruct (isLParen top) eqn:E.
    + exists []. cbn. rewrite app_nil_r. auto.
    + destruct (IH (output ++ [top])) as (moved & H1 & H2 & H3 & H4).
      exists (top :: moved). cbn [app forallb]. rewrite E, H3.
      split; [f_equal; exact H1|].
      split; [rewrite H2, <- app_assoc; reflexivity|].
      split; [reflexivity | exact H4].
Qed.

Lemma popOps_spec (curr : string) (stack : list token) :
  forall output,
  exists moved,
    stack = moved ++ snd (popOps curr output stack)
    /\ fst (popOps curr output stack) = output ++ moved
    /\ forallb (fun t => tokenType_eqb (typ t) tOp) moved = true.
Proof.
  induction stack as [|top stack IH]; intros output.
  - exists []. cbn. rewrite app_nil_r. auto.
  - cbn [popOps].
    destruct (tokenType_eqb (typ top) tOp && yields (val top) curr) eqn:E.
    + destruct (IH (output ++ [top])) as (moved & H1 & H2 & H3).
      exists (top :: moved). cbn [app forallb].
      apply andb_prop in E as [E _]. rewrite E, H3.
      split; [f_equal; exact H1|].
      split; [rewrite H2, <- app_assoc; reflexivity | reflexivity].
    + exists []. cbn. rewrite app_nil_r. auto.
Qed.

Lemma drain_spec (stack : list token) :
  forall output,
  drain output stack
  = match countL stack with
    | O => Ok (output ++ stack)
    | S _ => Err ErrUnbalanced
    end.
Proof.
  unfold countL.
  induction stack as [|top stack IH]; intros output.
  - cbn. rewrite app_nil_r. reflexivity.
  - cbn [drain filter]. fold (isLParen top). destruct (isLParen top).
    + reflexivity.
    + rewrite IH, <- app_assoc. reflexivity.
Qed.

(** ** What the stack holds *)

Lemma moved_kept (moved : list token) :
  forallb stackable moved = true ->
  forallb (fun t => negb (isLParen t)) moved = true ->
  filter keeps moved = moved /\ filter isOperand moved = []
  /\ filter isLParen moved = [].
Proof.
  induction moved as [|t moved IH]; [auto|]. cbn [forallb filter].
  intros H1 H2. apply andb_prop in H1 as [Hs H1].
  apply andb_prop in H2 as [Hl H2]. destruct (IH H1 H2) as (E1 & E2 & E3).
  unfold stackable, isLParen, keeps, isOperand in *.
  destruct (typ t); try discriminate; cbn [tokenType_eqb];
    rewrite E1, E2, E3; auto.
Qed.

Lemma ops_stackable (moved : list token) :
  forallb (fun t => tokenType_eqb (typ t) tOp) moved = true ->
  forallb stackable moved = true
  /\ forallb (fun t => negb (isLParen t)) moved = true.
Proof.
  induction moved as [|t moved IH]; [auto|]. cbn [forallb].
  intros H. apply andb_prop in H as [Ht H]. destruct (IH H) as [E1 E2].
  rewrite E1, E2. unfold stackable, isLParen.
  destruct (typ t); try discriminate. auto.
Qed.

Lemma stackable_app (a b : list token) :
  forallb stackable (a ++ b) = true ->
  forallb stackable a = true /\ forallb stackable b = true.
Proof. rewrite forallb_app. apply andb_prop. Qed.

Lemma typ_facts (t : token) :
  match typ t with
  | tNumber | tIdent =>
    keeps t = true /\ isOperand t = true /\ isLParen t = false
  | tOp | tFunc =>
    keeps t = true /\ isOperand t = false /\ isLParen t = false
    /\ stackable t = true
  | tLParen =>
    keeps t = false /\ isOperand t = false /\ isLParen t = true
    /\ stackable t = true
  | tRParen | tComma =>
    keeps t = false /\ isOperand t = false /\ isLParen t = false
  end.
Proof.
  unfold keeps, isOperand, isLParen, stackable. destruct (typ t); auto.
Qed.

Lemma countL_cons (t : token) (stack : list token) :
  countL (t :: stack) = if isLParen t then S (countL stack) else countL stack.
Proof. unfold countL. cbn [filter]. destruct (isLParen t); reflexivity. Qed.

Lemma countL_moved (moved s' : list token) :
  filter isLParen moved = [] -> countL (moved ++ s') = countL s'.
Proof. intros E. unfold countL. rewrite filter_app, E. reflexivity. Qed.

(** One turn of the parser, against the stack discipline, the tokens it
    keeps, the order of the operands and the nesting count. *)
Lemma shuntStep_spec (t : token) (output stack : list token) :
  forallb stackable stack = true ->
  match shuntStep t output stack with
  | Ok (o', s') =>
    forallb stackable s' = true
    /\ Permutation (o' ++ filter keeps s')
                   (output ++ filter keeps stack ++ filter keeps [t])
    /\ filter isOperand o' = filter isOperand output ++ filter isOperand [t]
    /\ nestStep t (countL stack) = Ok (countL s')
  | Err e => nestStep t (countL stack) = Err e
  | Panic => False
  end.
Proof.
  intros Hst. pose proof (typ_facts t) as F.
  unfold shuntStep, nestStep. cbn [filter].
  destruct (typ t) eqn:Et.
  - (* tNumber *)
    destruct F as (Fk & Fo & Fl). rewrite Fk, Fo.
    split; [assumption|]. split; [|split; [|reflexivity]].
    + rewrite <- !app_assoc. apply Permutation_app_head.
      apply Permutation_cons_append.
    + rewrite filter_app. cbn [filter]. rewrite Fo. reflexivity.
  - (* tOp *)
    destruct F as (Fk & Fo & Fl & Fs). rewrite Fk, Fo.
    destruct (popOps_spec (val t) stack output) as (moved & H1 & H2 & H3).
    destruct (popOps (val t) output stack) as [o' s']. cbn [fst snd] in *.
    subst o'. rewrite H1 in Hst |- *.
    apply stackable_app in Hst as [Hm Hs'].
    destruct (ops_stackable _ H3) as [_ Hnl].
    destruct (moved_kept _ Hm Hnl) as (E1 & E2 & E3).
    split; [cbn [forallb]; rewrite Fs; exact Hs'|].
    split; [|split].
    + cbn [filter]. rewrite Fk.
      rewrite filter_app, E1, <- !app_assoc.
      apply Permutation_app_head. apply Permutation_app_head.
      apply Permutation_cons_append.
    + rewrite !filter_app, E2. rewrite !app_nil_r. reflexivity.
    + rewrite countL_cons, Fl, (countL_moved _ _ E3). reflexivity.
  - (* tLParen *)
    destruct F as (Fk & Fo & Fl & Fs). rewrite Fk, Fo.
    split; [cbn [forallb]; rewrite Fs; exact Hst|].
    split; [|split].
    + cbn [filter]. rewrite Fk, !app_nil_r. apply Permutation_refl.
    + rewrite app_nil_r. reflexivity.
    + rewrite countL_cons, Fl. reflexivity.
  - (* tRParen *)
    destruct F as (Fk & Fo & Fl). rewrite Fk, Fo.
    destruct (popToLParen_spec stack output) as (moved & H1 & H2 & H3 & H4).
    destruct (popToLParen output stack) as [o' s']. cbn [fst snd] in *.
    subst o'. rewrite H1 in Hst. apply stackable_app in Hst as [Hm Hs'].
    destruct (moved_kept _ Hm H3) as (E1 & E2 & E3).
    subst stack. rewrite (countL_moved _ _ E3), filter_app, E1.
    destruct s' as [|lp s'']; [reflexivity|].
    rewrite countL_cons, H4.
    cbn [forallb] in Hs'. apply andb_prop in Hs' as [_ Hs''].
    assert (Hk : filter keeps (lp :: s'') = filter keeps s'').
    { cbn [filter].
      pose proof (typ_facts lp) as Flp. unfold isLParen in H4.
      destruct (typ lp); try discriminate H4.
      destruct Flp as (-> & _). reflexivity. }
    rewrite Hk, !app_nil_r.
    destruct s'' as [|top s3].
    + split; [reflexivity|]. split; [|split; [|reflexivity]].
      * rewrite <- !app_assoc. apply Permutation_refl.
      * rewrite filter_app, E2, ?app_nil_r. reflexivity.
    + pose proof (typ_facts top) as Ftop.
      destruct (tokenType_eqb (typ top) tFunc) eqn:Ef.
      * destruct (typ top); try discriminate Ef.
        destruct Ftop as (Tk & To & Tl & Ts).
        cbn [forallb] in Hs''. apply andb_prop in Hs'' as [_ Hs3].
        split; [exact Hs3|]. split; [|split].
        -- cbn [filter]. rewrite Tk.
           rewrite <- !app_assoc. apply Permutation_refl.
        -- rewrite !filter_app, E2. cbn [filter]. rewrite To.
           rewrite !app_nil_r. reflexivity.
        -- rewrite countL_cons, Tl. reflexivity.
      * split; [exact Hs''|]. split; [|split; [|reflexivity]].
        -- rewrite <- !app_assoc. apply Permutation_refl.
        -- rewrite filter_app, E2, ?app_nil_r. reflexivity.
  - (* tFunc *)
    destruct F as (Fk & Fo & Fl & Fs). rewrite Fk, Fo.
    split; [cbn [forallb]; rewrite Fs; exact Hst|].
    split; [|split].
    + cbn [filter]. rewrite Fk.
      apply Permutation_app_head. apply Permutation_cons_append.
    + rewrite app_nil_r. reflexivity.
    + rewrite countL_cons, Fl. reflexivity.
  - (* tComma *)
    destruct F as (Fk & Fo & Fl). rewrite Fk, Fo.
    destruct (popToLParen_spec stack output) as (moved & H1 & H2 & H3 & H4).
    destruct (popToLParen output stack) as [o' s']. cbn [fst snd] in *.
    subst o'. rewrite H1 in Hst.
    apply stackable_app in Hst as [Hm Hs'].
    destruct (moved_kept _ Hm H3) as (E1 & E2 & E3).
    subst stack. rewrite (countL_moved _ _ E3), filter_app, E1.
    destruct s' as [|lp s'']; [reflexivity|].
    rewrite countL_cons, H4.
    split; [exact Hs'|]. split; [|split; [|reflexivity]].
    + rewrite !app_nil_r, <- !app_assoc. apply Permutation_refl.
    + rewrite filter_app, E2, ?app_nil_r. reflexivity.
  - (* tIdent *)
    destruct F as (Fk & Fo & Fl). rewrite Fk, Fo.
    split; [assumption|]. split; [|split; [|reflexivity]].
    + rewrite <- !app_assoc. apply Permutation_app_head.
      apply Permutation_cons_append.
    + rewrite filter_app. cbn [filter]. rewrite Fo. reflexivity.
Qed.

End Parser.


Section ParserResults.

Context {M : GoMath}.

Lemma filter_cons_app {A : Type} (f : A -> bool) (t : A) (l : list A) :
  filter f (t :: l) = filter f [t] ++ filter f l.
Proof. cbn [filter]. destruct (f t); reflexivity. Qed.

Lemma shuntLoop_spec (toks : list token) :
  forall output stack,
  forallb stackable stack = true ->
  match shuntLoop toks output stack with
  | Ok (o', s') =>
    forallb stackable s' = true
    /\ Permutation (o' ++ filter keeps s')
                   (output ++ filter keeps stack ++ filter keeps toks)
    /\ filter isOperand o' = filter isOperand output ++ filter isOperand toks
    /\ nesting toks (countL stack) = Ok (countL s')
  | Err e => nesting toks (countL stack) = Err e
  | Panic => False
  end.
Proof.
  induction toks as [|t toks IH]; intros output stack Hst.
  - cbn. rewrite !app_nil_r. auto using Permutation_refl.
  - cbn [shuntLoop nesting].
    pose proof (shuntStep_spec t output stack Hst) as Hstep.
    destruct (shuntStep t output stack) as [[o1 s1]|e|]; cbn [bind fst snd].
    + destruct Hstep as (Hs1 & Hp1 & Ho1 & Hn1). rewrite Hn1. cbn [bind].
      specialize (IH o1 s1 Hs1).
      destruct (shuntLoop toks o1 s1) as [[o' s']|e|]; [|assumption..].
      destruct IH as (Hs' & Hp & Ho & Hn).
      split; [assumption|]. split; [|split; [|assumption]].
      * eapply Permutation_trans; [exact Hp|].
        rewrite (filter_cons_app keeps t toks).
        rewrite !app_assoc. apply Permutation_app_tail.
        rewrite <- !app_assoc. exact Hp1.
      * rewrite Ho, Ho1, (filter_cons_app isOperand t toks), <- app_assoc.
        reflexivity.
    + rewrite Hstep. reflexivity.
    + contradiction.
Qed.

Lemma no_lparen (s : list token) :
  countL s = 0%nat -> forallb (fun t => negb (isLParen t)) s = true.
Proof.
  unfold countL. induction s as [|t s IH]; [reflexivity|].
  cbn [filter forallb]. destruct (isLParen t); [discriminate|].
  intros H. rewrite (IH H). reflexivity.
Qed.

(** The result of the loops of [shuntingYard], before the check of the
    function names. *)
Lemma shunt_drain_spec (toks : list token) :
  match (st <- shuntLoop toks [] [] ;; drain (fst st) (snd st)) with
  | Ok out =>
    Permutation out (filter keeps toks)
    /\ filter isOperand out = filter isOperand toks
    /\ parenCheck toks = Ok tt
  | Err e => parenCheck toks = Err e
  | Panic => False
  end.
Proof.
  pose proof (shuntLoop_spec toks [] [] eq_refl) as H. unfold parenCheck.
  change (countL []) with 0%nat in H.
  destruct (shuntLoop toks [] []) as [[o' s']|e|]; cbn [bind fst snd].
  - destruct H as (Hs & Hp & Ho & Hn). rewrite Hn. cbn [bind].
    rewrite drain_spec. destruct (countL s') eqn:Ec; [|reflexivity].
    destruct (moved_kept s' Hs (no_lparen s' Ec)) as (E1 & E2 & _).
    rewrite E1 in Hp. cbn [app filter] in Hp, Ho.
    split; [exact Hp|]. split; [|reflexivity].
    rewrite filter_app, E2, app_nil_r. exact Ho.
  - rewrite H. reflexivity.
  - contradiction.
Qed.

Lemma shuntingYard_moved (toks out : list token) :
  shuntingYard toks = Ok out -> Permutation out (filter keeps toks).
Proof.
  unfold shuntingYard. rewrite <- bind_assoc.
  pose proof (shunt_drain_spec toks) as H.
  destruct (st <- shuntLoop toks [] [] ;; drain (fst st) (snd st))
    as [o|e|]; cbn [bind]; [|discriminate..].
  destruct (checkFuncs o); cbn [bind]; [|discriminate..].
  intros [= <-]. destruct H as (Hp & _). exact Hp.
Qed.

(** The postfix form holds the tokens of the input other than parentheses
    and separators, each as often as the input does, and its numbers and
    identifiers stand in the order of the input. *)
Theorem shuntingYard_keeps (toks out : list token) :
  shuntingYard toks = Ok out ->
  Permutation out (filter keeps toks)
  /\ filter isOperand out = filter isOperand toks.
Proof.
  unfold shuntingYard. rewrite <- bind_assoc.
  pose proof (shunt_drain_spec toks) as H.
  destruct (st <- shuntLoop toks [] [] ;; drain (fst st) (snd st))
    as [o|e|]; cbn [bind]; [|discriminate..].
  destruct (checkFuncs o); cbn [bind]; [|discriminate..].
  intros [= <-]. destruct H as (Hp & Ho & _). auto.
Qed.

Lemma checkFuncs_known (out : list token) :
  (forall t, In t out -> typ t = tFunc -> hasKey (val t) arity = true) ->
  checkFuncs out = Ok tt.
Proof.
  induction out as [|t out IH]; intros H; [reflexivity|].
  cbn [checkFuncs]. destruct (tokenType_eqb (typ t) tFunc) eqn:Et.
  - rewrite (H t (or_introl eq_refl)); [|destruct (typ t); try discriminate Et; reflexivity].
    cbn. apply IH. intros t' Hin. apply H. right. assumption.
  - cbn. apply IH. intros t' Hin. apply H. right. assumption.
Qed.

(** The parser accepts a token list exactly when its parentheses and
    separators nest, and otherwise fails with the error of the first
    token that does not: a right parenthesis or a separator with no
    parenthesis open, or the end of the list with one still open.  The
    function names are taken to be keys of [arity], as the lexer makes
    them; how operators and operands alternate plays no part. *)
Theorem shuntingYard_accepts (toks : list token) :
  (forall t, In t toks -> typ t = tFunc -> hasKey (val t) arity = true) ->
  (out <- shuntingYard toks ;; Ok tt) = parenCheck toks.
Proof.
  intros Hf. unfold shuntingYard. rewrite <- bind_assoc.
  pose proof (shunt_drain_spec toks) as H.
  destruct (st <- shuntLoop toks [] [] ;; drain (fst st) (snd st))
    as [o|e|]; cbn [bind]; [|symmetry; exact H | contradiction].
  destruct H as (Hp & _ & Hc).
  rewrite checkFuncs_known; [cbn [bind]; symmetry; exact Hc|].
  intros t Hin. apply Hf.
  apply (Permutation_in _ Hp) in Hin. apply filter_In in Hin. tauto.
Qed.

End ParserResults.


Section EvaluatorResults.

Context {M : GoMath}.

(** ** The size of the operand stack *)

Lemma evalStep_net (ans : float) (t : token) (st st' : list float) :
  evalStep ans t st = Ok st' ->
  Z.of_nat (List.length st') = Z.of_nat (List.length st) + net t.
Proof.
  unfold evalStep, net, requiredArity. intros H.
  destruct (typ t);
    try (destruct (String.eqb (val t) "max" || String.eqb (val t) "min");
         [destruct st as [|b [|a st]] | destruct st as [|b st]];
         cbn [List.length Nat.ltb Nat.leb firstn skipn] in H);
    repeat match type of H with
           | context [if ?c then _ else _] => destruct c
           | context [match ?st with [] => _ | _ :: _ => _ end] =>
             destruct st
           | context [bind ?r _] => destruct r; cbn [bind] in H
           | context [lookup ?k ?m] => destruct (lookup k m)
           end; try discriminate H; injection H as <-;
    cbn [List.length]; lia.
Qed.

Lemma evalLoop_net (ans : float) (rpn : list token) :
  forall st st',
  evalLoop ans rpn st = Ok st' ->
  Z.of_nat (List.length st') = Z.of_nat (List.length st) + netSum rpn.
Proof.
  induction rpn as [|t rpn IH]; intros st st' H.
  - injection H as <-. unfold netSum. cbn. lia.
  - cbn [evalLoop] in H.
    destruct (evalStep ans t st) as [st1| |] eqn:E; try discriminate H.
    cbn [bind] in H. apply IH in H. apply evalStep_net in E.
    unfold netSum in *. cbn [map fold_right]. lia.
Qed.

(** A postfix sequence that [evalRPN] evaluates holds one operand more
    than it holds binary operators and two-argument functions: counting 1
    for a number or identifier, -1 for a binary operator, [max] or [min],
    and 0 for a unary operator or a one-argument function, the sum is 1. *)
Theorem evalRPN_balance (rpn : list token) (ans v : float) :
  evalRPN rpn ans = Ok v -> netSum rpn = 1.
Proof.
  unfold evalRPN. intros H.
  destruct (evalLoop ans rpn []) as [st| |] eqn:E; try discriminate H.
  apply evalLoop_net in E. cbn [bind] in H.
  destruct st as [|x [|y st]]; try discriminate H.
  cbn [List.length] in E. lia.
Qed.

(** ** The previous answer *)

Lemma evalStep_ans (a b : float) (t : token) (st : list float) :
  usesAns t = false -> evalStep a t st = evalStep b t st.
Proof.
  unfold usesAns, evalStep. destruct (typ t); try reflexivity.
  cbn [tokenType_eqb andb]. intros ->. reflexivity.
Qed.

Lemma evalLoop_ans (a b : float) (rpn : list token) :
  existsb usesAns rpn = false ->
  forall st, evalLoop a rpn st = evalLoop b rpn st.
Proof.
  induction rpn as [|t rpn IH]; intros H st; [reflexivity|].
  cbn [existsb] in H. apply orb_false_elim in H as [Ht H].
  cbn [evalLoop]. rewrite (evalStep_ans a b t st Ht).
  destruct (evalStep b t st); cbn [bind]; auto.
Qed.

Lemma existsb_perm_filter (f : token -> bool) (toks out : list token) :
  Permutation out (filter keeps toks) ->
  existsb f toks = false -> existsb f out = false.
Proof.
  intros Hp H. destruct (existsb f out) eqn:E; [|reflexivity].
  apply existsb_exists in E as (t & Hin & Ht).
  apply (Permutation_in _ Hp) in Hin. apply filter_In in Hin as [Hin _].
  assert (existsb f toks = true) by (apply existsb_exists; eauto).
  congruence.
Qed.

(** The previous answer reaches the result only through the identifier
    [ans]: a line whose tokens hold no [ans] evaluates to the same value,
    or fails with the same error, whatever the previous answer is. *)
Theorem evalExpr_without_ans (input : string) (toks : list token)
    (a b : float) :
  tokenize input = Ok toks -> existsb usesAns toks = false ->
  evalExpr input a = evalExpr input b.
Proof.
  intros Ht Hno. unfold evalExpr. rewrite Ht. cbn [bind].
  destruct (shuntingYard toks) as [rpn| |] eqn:Es; try reflexivity.
  cbn [bind]. unfold evalRPN.
  pose proof (shuntingYard_moved _ _ Es) as Hp.
  rewrite (evalLoop_ans a b rpn (existsb_perm_filter _ _ _ Hp Hno)).
  reflexivity.
Qed.

End EvaluatorResults.


Section Stages.

Context {M : GoMath}.

(** ** What each stage can answer *)

Lemma ParseFloat_outcome (s : string) :
  match ParseFloat s with
  | Ok _ => True
  | Err e => stageOf e = Evaluating
  | Panic => False
  end.
Proof.
  unfold ParseFloat.
  repeat match goal with
         | |- context [if ?c then _ else _] => destruct c
         | |- context [match readFloat ?b with _ => _ end] =>
           destruct (readFloat b) as [[[m e] [|c r]]|]
         end; cbn; auto.
Qed.

Lemma evalStep_outcome (ans : float) (t : token) (st : list float) :
  tokenOk t = true ->
  match evalStep ans t st with
  | Ok _ => True
  | Err e => stageOf e = Evaluating
  | Panic => False
  end.
Proof.
  destruct t as [ty v]. unfold tokenOk, evalStep. cbn [typ val].
  destruct ty; intros Hok; try exact I.
  - pose proof (ParseFloat_outcome v) as H.
    destruct (ParseFloat v); cbn [bind]; auto.
  - unfold hasKey, ops in Hok. cbn [lookup] in Hok.
    repeat match type of Hok with
           | context [String.eqb v ?k] =>
             destruct (String.eqb_spec v k) as [->|_]
           end; try discriminate Hok;
      destruct st as [|b [|a st]]; cbn; try exact I; try reflexivity;
      destruct (b =? 0)%float; cbn; auto.
  - apply andb_prop in Hok as [Hok _].
    unfold hasKey, functions in Hok. cbn [lookup] in Hok.
    repeat match type of Hok with
           | context [String.eqb v ?k] =>
             destruct (String.eqb_spec v k) as [->|_]
           end; try discriminate Hok;
      destruct st as [|b [|a st]]; cbn; try exact I; try reflexivity;
      match goal with
      | |- context [if ?c then _ else _] => destruct c; cbn; auto
      end.
  - destruct (String.eqb v "ans"); [exact I|]. cbn [orb] in Hok.
    unfold hasKey in Hok. destruct (lookup v constants); [exact I|].
    discriminate Hok.
Qed.

Lemma evalLoop_outcome (ans : float) (rpn : list token) :
  forallb tokenOk rpn = true ->
  forall st,
  match evalLoop ans rpn st with
  | Ok _ => True
  | Err e => stageOf e = Evaluating
  | Panic => False
  end.
Proof.
  induction rpn as [|t rpn IH]; intros Hok st; [exact I|].
  cbn [forallb] in Hok. apply andb_prop in Hok as [Ht Hok].
  cbn [evalLoop]. pose proof (evalStep_outcome ans t st Ht) as H.
  destruct (evalStep ans t st); cbn [bind];
    [apply IH; assumption | assumption | assumption].
Qed.

Lemma evalRPN_outcome (ans : float) (rpn : list token) :
  forallb tokenOk rpn = true ->
  match evalRPN rpn ans with
  | Ok _ => True
  | Err e => stageOf e = Evaluating
  | Panic => False
  end.
Proof.
  intros Hok. unfold evalRPN.
  pose proof (evalLoop_outcome ans rpn Hok []) as H.
  destruct (evalLoop ans rpn []) as [[|x [|y st]]| |]; cbn [bind]; auto.
Qed.

Lemma nesting_outcome (toks : list token) :
  forall d,
  match nesting toks d with
  | Ok _ => True
  | Err e => stageOf e = Parsing
  | Panic => False
  end.
Proof.
  induction toks as [|t toks IH]; intros d; [exact I|].
  cbn [nesting]. unfold nestStep.
  destruct (typ t); try destruct d; cbn [bind]; try apply IH; reflexivity.
Qed.

Lemma parenCheck_outcome (toks : list token) :
  match parenCheck toks with
  | Ok _ => True
  | Err e => stageOf e = Parsing
  | Panic => False
  end.
Proof.
  unfold parenCheck. pose proof (nesting_outcome toks 0) as H.
  destruct (nesting toks 0) as [[|d]| |]; cbn [bind]; auto.
Qed.

Lemma tokenOk_arity (toks : list token) :
  forallb tokenOk toks = true ->
  forall t, In t toks -> typ t = tFunc -> hasKey (val t) arity = true.
Proof.
  intros Hok t Hin Ht. rewrite forallb_forall in Hok.
  specialize (Hok t Hin). unfold tokenOk in Hok. rewrite Ht in Hok.
  apply andb_prop in Hok. tauto.
Qed.

Lemma shuntingYard_outcome (toks : list token) :
  forallb tokenOk toks = true ->
  match shuntingYard toks with
  | Ok out => forallb tokenOk out = true
  | Err e => stageOf e = Parsing
  | Panic => False
  end.
Proof.
  intros Hok.
  pose proof (parenCheck_outcome toks) as Hc.
  unfold shuntingYard. rewrite <- bind_assoc.
  pose proof (shunt_drain_spec toks) as H.
  destruct (st <- shuntLoop toks [] [] ;; drain (fst st) (snd st))
    as [o|e|]; cbn [bind].
  - destruct H as (Hp & _ & _).
    assert (Hin : forall t, In t o -> In t toks).
    { intros t Hin. apply (Permutation_in _ Hp) in Hin.
      apply filter_In in Hin. tauto. }
    rewrite checkFuncs_known.
    + cbn [bind]. apply forallb_forall. intros t Ht.
      rewrite forallb_forall in Hok. auto.
    + intros t Ht. apply (tokenOk_arity toks Hok). auto.
  - rewrite H in Hc. exact Hc.
  - contradiction.
Qed.

Lemma tokenize_outcome (input : string) :
  match tokenize input with
  | Ok toks => forallb tokenOk toks = true
  | Err e => stageOf e = Lexing
  | Panic => False
  end.
Proof.
  destruct (tokenize_returns input) as [[toks H] | [e H]]; rewrite H;
    unfold tokenize in H;
    (destruct (tokenizeLoop _ _ _ _) as [r|] eqn:E; [|discriminate H]);
    subst r.
  - eapply tokenizeLoop_tokens_ok; [eassumption | reflexivity].
  - destruct (tokenizeLoop_error _ _ _ _ _ E)
      as (pre & s & _ & _ & [Hl | Hl]).
    + destruct Hl as (ch & rest & _ & _ & ->). reflexivity.
    + destruct Hl as (ch & id & rest & _ & _ & _ & _ & _ & ->). reflexivity.
Qed.

Lemma evalExpr_no_panic (input : string) (ans : float) :
  evalExpr input ans <> Panic.
Proof.
  unfold evalExpr. pose proof (tokenize_outcome input) as Ht.
  destruct (tokenize input) as [toks|e|]; cbn [bind];
    [|discriminate | contradiction].
  pose proof (shuntingYard_outcome toks Ht) as Hs.
  destruct (shuntingYard toks) as [rpn|e|]; cbn [bind];
    [|discriminate | contradiction].
  pose proof (evalRPN_outcome ans rpn Hs) as He.
  destruct (evalRPN rpn ans); [discriminate.. | contradiction].
Qed.

(** [evalExpr] always returns a value or an error: on no line does it
    call a nil function value or index past the end of a slice. *)
Theorem evalExpr_returns (input : string) (ans : float) :
  (exists v, evalExpr input ans = Ok v)
  \/ (exists e, evalExpr input ans = Err e).
Proof.
  pose proof (evalExpr_no_panic input ans) as H.
  destruct (evalExpr input ans) as [v|e|]; eauto. contradiction.
Qed.

(** Every error of [evalExpr] is the error of one stage: an unknown
    identifier or an invalid character comes from [tokenize]; a separator
    outside parentheses or unbalanced parentheses from [shuntingYard] on
    the tokens; a numeral that does not parse, a missing operand, a
    division by zero, too few arguments, the square root of a negative
    number or an invalid expression from [evalRPN] on the postfix form.
    The unsupported-function error of [shuntingYard] and the
    argument-count errors of [max] and [min] are never returned, nor is
    the unknown-identifier error of [evalRPN]. *)
Theorem evalExpr_error_stage (input : string) (ans : float) :
  match evalExpr input ans with
  | Err e =>
    match stageOf e with
    | Lexing => tokenize input = Err e
    | Parsing =>
      exists toks, tokenize input = Ok toks /\ shuntingYard toks = Err e
    | Evaluating =>
      exists toks rpn,
        tokenize input = Ok toks /\ shuntingYard toks = Ok rpn
        /\ evalRPN rpn ans = Err e
    | Unused => False
    end
  | _ => True
  end.
Proof.
  unfold evalExpr. pose proof (tokenize_outcome input) as Ht.
  destruct (tokenize input) as [toks|e|]; cbn [bind];
    [|rewrite Ht; reflexivity | exact I].
  pose proof (shuntingYard_outcome toks Ht) as Hs.
  destruct (shuntingYard toks) as [rpn|e|] eqn:Es; cbn [bind];
    [|rewrite Hs; exists toks; auto | exact I].
  pose proof (evalRPN_outcome ans rpn Hs) as He.
  destruct (evalRPN rpn ans) as [v|e|] eqn:Ee; [exact I | | exact I].
  rewrite He. exists toks, rpn. auto.
Qed.

End Stages.


Section TermParser.

Context {M : GoMath}.

(** ** The parser on the tokens of a term *)

Lemma termStack_le (m m' : Z) (stack : list token) :
  termStack m stack -> m <= m' -> termStack m' stack.
Proof.
  destruct stack as [|top stack]; [trivial|].
  intros [H | [[H H4] | (s & H & Hs)]] Hm.
  - left. assumption.
  - right. left. split; [assumption | lia].
  - right. right. exists s. split; [assumption | lia].
Qed.

Lemma termRest_le (m m' : Z) (rest : list token) :
  termRest m rest -> m <= m' -> termRest m' rest.
Proof.
  destruct rest as [|t rest]; [trivial|].
  intros [H | [H | (o & H & Ho)]] Hm; [left | right; left | right; right];
    try assumption.
  exists o. split; [assumption | lia].
Qed.

Lemma leftBound_le4 (o : binop) : leftBound o <= 4.
Proof. destruct o; cbv; congruence. Qed.

(** A sign is pushed whatever is on the stack. *)
Lemma shuntStep_sign (m : Z) (sign : token) (output stack : list token) :
  sign = Token tOp "u-" \/ sign = Token tOp "u+" ->
  termStack m stack ->
  shuntStep sign output stack = Ok (output, sign :: stack).
Proof.
  intros Hsign Hst. destruct stack as [|top stack].
  - destruct Hsign as [-> | ->]; reflexivity.
  - destruct Hst as [-> | [[[-> | ->] _] | (s & -> & _)]];
      destruct Hsign as [-> | ->]; try reflexivity; destruct s; reflexivity.
Qed.

(** A binary operator of level [m] or more is pushed on a stack where a
    term of level [m] may be read. *)
Lemma shuntStep_binop (r : binop) (m : Z) (output stack : list token) :
  termStack m stack -> m <= level r ->
  shuntStep (opToken r) output stack = Ok (output, opToken r :: stack).
Proof.
  intros Hst Hm. destruct stack as [|top stack]; [reflexivity|].
  destruct Hst as [-> | [[_ H4] | (s & -> & Hs)]].
  - reflexivity.
  - exfalso. destruct r; cbn [level] in Hm; lia.
  - apply (shuntStep_push r m); [|assumption].
    exists s. split; [reflexivity | assumption].
Qed.

(** What follows a term moves a sign, or a binary operator of its level
    or more, from the top of the stack to the output before anything
    else. *)
Lemma shuntLoop_moves (top : token) (m : Z) (rest output stack : list token) :
  ((top = Token tOp "u-" \/ top = Token tOp "u+")
   \/ exists r, top = opToken r /\ m <= level r) ->
  termRest m rest ->
  (st <- shuntLoop rest output (top :: stack) ;; drain (fst st) (snd st))
  = (st <- shuntLoop rest (output ++ [top]) stack ;;
     drain (fst st) (snd st)).
Proof.
  intros Htop Hrest.
  assert (Hop : typ top = tOp).
  { destruct Htop as [[-> | ->] | (r & -> & _)]; reflexivity. }
  destruct rest as [|t rest].
  - cbn [shuntLoop bind fst snd drain]. rewrite Hop. reflexivity.
  - destruct Hrest as [-> | [-> | (o & -> & Ho)]].
    + cbn [shuntLoop]. unfold shuntStep. cbn [typ rparen popToLParen].
      rewrite Hop. reflexivity.
    + cbn [shuntLoop]. unfold shuntStep. cbn [typ comma popToLParen].
      rewrite Hop. reflexivity.
    + destruct Htop as [[-> | ->] | (r & -> & Hr)].
      * destruct o; reflexivity.
      * destruct o; reflexivity.
      * apply (shuntLoop_close r m); [|assumption].
        exists o. split; [reflexivity | assumption].
Qed.

Lemma termStack_not_func (m : Z) (stack : list token) :
  termStack m stack ->
  match stack with
  | top :: _ => tokenType_eqb (typ top) tFunc = false
  | [] => True
  end.
Proof.
  destruct stack as [|top stack]; [trivial|].
  intros [-> | [[[-> | ->] _] | (s & -> & _)]]; reflexivity.
Qed.

(** The right parenthesis that closes a parenthesis on top of the stack. *)
Lemma shuntStep_rparen (m : Z) (output stack : list token) :
  termStack m stack ->
  shuntStep rparen output (lparen :: stack) = Ok (output, stack).
Proof.
  intros Hst. apply termStack_not_func in Hst.
  unfold shuntStep. cbn [typ rparen lparen popToLParen tokenType_eqb].
  destruct stack as [|top stack]; [reflexivity|]. rewrite Hst. reflexivity.
Qed.

Lemma shunt_term (t : term) :
  forall m rest output stack,
  termFits m t = true -> termStack m stack -> termRest m rest ->
  (st <- shuntLoop (termTokens t ++ rest) output stack ;;
   drain (fst st) (snd st))
  = (st <- shuntLoop rest (output ++ termPostfix t) stack ;;
     drain (fst st) (snd st)).
Proof.
  induction t as [n | name | e IH | e IH | r l IHl rt IHrt | e IH
                 | f a IHa | f a IHa b IHb];
    intros m rest output stack Hfit Hst Hrest; cbn [termFits] in Hfit.
  - reflexivity.
  - reflexivity.
  - apply andb_prop in Hfit as [Hm Hfit]. apply Z.leb_le in Hm.
    cbn [termTokens termPostfix app shuntLoop].
    rewrite (shuntStep_sign m) by auto. cbn [bind fst snd].
    rewrite (IH 4); [ | assumption | right; left; split; [auto | lia]
                      | apply (termRest_le m); assumption ].
    rewrite (shuntLoop_moves _ 4);
      [ | auto | apply (termRest_le m); assumption ].
    rewrite <- app_assoc. reflexivity.
  - apply andb_prop in Hfit as [Hm Hfit]. apply Z.leb_le in Hm.
    cbn [termTokens termPostfix app shuntLoop].
    rewrite (shuntStep_sign m) by auto. cbn [bind fst snd].
    rewrite (IH 4); [ | assumption | right; left; split; [auto | lia]
                      | apply (termRest_le m); assumption ].
    rewrite (shuntLoop_moves _ 4);
      [ | auto | apply (termRest_le m); assumption ].
    rewrite <- app_assoc. reflexivity.
  - apply andb_prop in Hfit as [Hfit Hfr].
    apply andb_prop in Hfit as [Hm Hfl]. apply Z.leb_le in Hm.
    destruct (level_bounds r) as [Hlb Hrb].
    cbn [termTokens termPostfix]. rewrite <- app_assoc. cbn [app].
    rewrite (IHl (leftBound r));
      [ | assumption | apply (termStack_le m); [assumption | lia]
        | right; right; exists r; split; [reflexivity | lia] ].
    cbn [shuntLoop].
    rewrite (shuntStep_binop r m) by assumption. cbn [bind fst snd].
    rewrite (IHrt (rightBound r));
      [ | assumption | right; right; exists r; split; [reflexivity | lia]
        | apply (termRest_le m); [assumption | lia] ].
    rewrite (shuntLoop_moves _ m);
      [ | right; exists r; split; [reflexivity | assumption] | assumption ].
    rewrite <- !app_assoc. reflexivity.
  - cbn [termTokens termPostfix app]. rewrite <- app_assoc.
    cbn [shuntLoop app]. unfold shuntStep at 1. cbn [typ lparen bind fst snd].
    rewrite (IH 1); [ | assumption | left; reflexivity | left; reflexivity ].
    cbn [shuntLoop]. rewrite (shuntStep_rparen m) by assumption.
    reflexivity.
  - cbn [termTokens termPostfix app]. rewrite <- app_assoc.
    cbn [shuntLoop app]. unfold shuntStep at 1. cbn [typ bind fst snd].
    unfold shuntStep at 1. cbn [typ lparen bind fst snd].
    rewrite (IHa 1); [ | assumption | left; reflexivity | left; reflexivity ].
    cbn [shuntLoop]. unfold shuntStep at 1.
    cbn [typ rparen lparen popToLParen tokenType_eqb bind fst snd].
    rewrite <- app_assoc. reflexivity.
  - apply andb_prop in Hfit as [Hfa Hfb].
    cbn [termTokens termPostfix app]. rewrite <- !app_assoc.
    cbn [shuntLoop app]. unfold shuntStep at 1. cbn [typ bind fst snd].
    unfold shuntStep at 1. cbn [typ lparen bind fst snd].
    rewrite (IHa 1);
      [ | assumption | left; reflexivity | right; left; reflexivity ].
    cbn [shuntLoop]. unfold shuntStep at 1.
    cbn [typ comma lparen popToLParen tokenType_eqb bind fst snd].
    rewrite <- app_assoc.
    rewrite (IHb 1); [ | assumption | left; reflexivity | left; reflexivity ].
    cbn [app shuntLoop]. unfold shuntStep at 1.
    cbn [typ rparen lparen popToLParen tokenType_eqb bind fst snd].
    rewrite <- !app_assoc. reflexivity.
Qed.

Lemma unaryNames_arity (f : string) :
  inNames f unaryNames = true ->
  hasKey f arity = true /\ requiredArity f = 1%nat.
Proof.
  unfold inNames, unaryNames. cbn [existsb].
  repeat match goal with
         | |- context [String.eqb f ?k] =>
           destruct (String.eqb_spec f k) as [->|_]; [split; reflexivity|]
         end.
  discriminate.
Qed.

Lemma binaryNames_arity (f : string) :
  inNames f binaryNames = true ->
  hasKey f arity = true /\ requiredArity f = 2%nat.
Proof.
  unfold inNames, binaryNames. cbn [existsb].
  repeat match goal with
         | |- context [String.eqb f ?k] =>
           destruct (String.eqb_spec f k) as [->|_]; [split; reflexivity|]
         end.
  discriminate.
Qed.

Lemma checkFuncs_app (a b : list token) :
  checkFuncs a = Ok tt -> checkFuncs b = Ok tt -> checkFuncs (a ++ b) = Ok tt.
Proof.
  induction a as [|x a IH]; intros Ha Hb; [assumption|].
  cbn [app checkFuncs] in *.
  destruct (tokenType_eqb (typ x) tFunc && negb (hasKey (val x) arity));
    [discriminate Ha | auto].
Qed.

Lemma checkFuncs_term (t : term) :
  termNamed t = true -> checkFuncs (termPostfix t) = Ok tt.
Proof.
  induction t as [n | name | e IH | e IH | r l IHl rt IHrt | e IH
                 | f a IHa | f a IHa b IHb];
    cbn [termNamed termPostfix]; intros H;
    repeat match type of H with
           | _ && _ = true => apply andb_prop in H as [H ?]
           end;
    try reflexivity; repeat apply checkFuncs_app; auto; try reflexivity.
  - cbn. destruct (unaryNames_arity f H) as [-> _]. reflexivity.
  - cbn. destruct (binaryNames_arity f H) as [-> _]. reflexivity.
Qed.

Lemma shuntingYard_term (t : term) :
  termNamed t = true -> termFits 1 t = true ->
  shuntingYard (termTokens t) = Ok (termPostfix t).
Proof.
  intros Hn Hfit. unfold shuntingYard.
  rewrite <- bind_assoc.
  rewrite <- (app_nil_r (termTokens t)).
  rewrite (shunt_term t 1 [] [] [] Hfit I I).
  cbn [shuntLoop bind fst snd drain app].
  rewrite (checkFuncs_term t Hn). reflexivity.
Qed.

(** ** The evaluator on the postfix form of a term *)

Lemma evalStep_call1 (ans : float) (f : string) (x : float)
    (st : list float) :
  requiredArity f = 1%nat ->
  evalStep ans (Token tFunc f) (x :: st)
  = (res <- applyFn f [x] ;; Ok (res :: st)).
Proof.
  unfold requiredArity, evalStep, applyFn. cbn [typ val].
  destruct (String.eqb f "max" || String.eqb f "min"); [discriminate|].
  intros _. cbn [List.length Nat.ltb Nat.leb firstn skipn rev app].
  destruct (lookup f functions); reflexivity.
Qed.

Lemma evalStep_call2 (ans : float) (f : string) (x y : float)
    (st : list float) :
  requiredArity f = 2%nat ->
  evalStep ans (Token tFunc f) (y :: x :: st)
  = (res <- applyFn f [x; y] ;; Ok (res :: st)).
Proof.
  unfold requiredArity, evalStep, applyFn. cbn [typ val].
  destruct (String.eqb f "max" || String.eqb f "min"); [|discriminate].
  intros _. cbn [List.length Nat.ltb Nat.leb firstn skipn rev app].
  destruct (lookup f functions); reflexivity.
Qed.

Lemma evalLoop_term (ans : float) (t : term) :
  termNamed t = true ->
  forall rest st,
  evalLoop ans (termPostfix t ++ rest) st
  = (v <- termValue ans t ;; evalLoop ans rest (v :: st)).
Proof.
  induction t as [n | name | e IH | e IH | o l IHl r IHr | e IH
                 | f a IHa | f a IHa b IHb];
    cbn [termNamed]; intros Hn rest st;
    repeat match type of Hn with
           | _ && _ = true => apply andb_prop in Hn as [Hn ?]
           end.
  - cbn [termPostfix app evalLoop termValue]. unfold evalStep. cbn [typ val].
    destruct (ParseFloat (string_of_list_ascii n)); reflexivity.
  - cbn [termPostfix app evalLoop termValue]. unfold evalStep. cbn [typ val].
    destruct (String.eqb name "ans"); [reflexivity|].
    destruct (lookup name constants); reflexivity.
  - cbn [termPostfix termValue]. rewrite <- app_assoc, (IH Hn), bind_assoc.
    destruct (termValue ans e); reflexivity.
  - cbn [termPostfix termValue]. rewrite <- app_assoc, (IH Hn).
    destruct (termValue ans e); reflexivity.
  - cbn [termPostfix termValue]. rewrite <- !app_assoc, (IHl Hn), bind_assoc.
    destruct (termValue ans l) as [a| |]; cbn [bind]; try reflexivity.
    rewrite IHr by assumption. rewrite bind_assoc.
    destruct (termValue ans r) as [b| |]; cbn [bind]; try reflexivity.
    cbn [app evalLoop]. rewrite evalStep_binop.
    destruct (applyOp o a b); reflexivity.
  - cbn [termPostfix termValue]. apply IH. assumption.
  - cbn [termPostfix termValue]. rewrite <- app_assoc, IHa by assumption.
    rewrite bind_assoc.
    destruct (termValue ans a) as [x| |]; cbn [bind]; try reflexivity.
    cbn [app evalLoop].
    rewrite evalStep_call1 by (apply unaryNames_arity; assumption).
    destruct (applyFn f [x]); reflexivity.
  - cbn [termPostfix termValue]. rewrite <- !app_assoc, IHa by assumption.
    rewrite bind_assoc.
    destruct (termValue ans a) as [x| |]; cbn [bind]; try reflexivity.
    rewrite IHb by assumption. rewrite bind_assoc.
    destruct (termValue ans b) as [y| |]; cbn [bind]; try reflexivity.
    cbn [app evalLoop].
    rewrite evalStep_call2 by (apply binaryNames_arity; assumption).
    destruct (applyFn f [x; y]); reflexivity.
Qed.

Lemma evalRPN_term (t : term) (ans : float) :
  termNamed t = true -> evalRPN (termPostfix t) ans = termValue ans t.
Proof.
  intros Hn. unfold evalRPN. rewrite <- (app_nil_r (termPostfix t)).
  rewrite (evalLoop_term ans t Hn). destruct (termValue ans t); reflexivity.
Qed.

(** On the tokens of a term of the whole language (signs, parentheses and
    calls included) the parser yields the postfix form of the term, and
    the evaluator returns the value of the term: its operands from left to
    right, signs above every binary operator, and the arguments of [max]
    and [min] in the order written. *)
Theorem tokens_of_term (t : term) (ans : float) :
  termNamed t = true -> termFits 1 t = true ->
  shuntingYard (termTokens t) = Ok (termPostfix t)
  /\ evalRPN (termPostfix t) ans = termValue ans t.
Proof.
  intros Hn Hfit. split; [apply shuntingYard_term; assumption|].
  apply evalRPN_term. assumption.
Qed.

End TermParser.


Section TermLexer.

Context {M : GoMath}.

(** ** Numerals before any delimiter *)

Lemma scanNumber_halt (hasE : bool) (rest : list ascii) :
  halts rest -> scanNumber hasE rest = ([], rest).
Proof.
  destruct rest as [|c rest]; [reflexivity|]. intros [Hd Hm].
  cbn [scanNumber]. unfold isPointOrDigit in Hd. unfold isMarker in Hm.
  rewrite Hd, Hm. reflexivity.
Qed.

Lemma halts_exponent_digits (d rest : list ascii) :
  dropDigits d = [] -> halts rest ->
  scanNumber true (d ++ rest) = (d, rest).
Proof.
  intros Hd Hrest. induction d as [|c d IH].
  - apply scanNumber_halt. assumption.
  - apply dropDigits_nil in Hd as [Hc Hd]. cbn [app].
    rewrite (scanNumber_digit _ _ _ (IsDigit_point _ Hc)), (IH Hd).
    reflexivity.
Qed.

Lemma halts_exponent (x rest : list ascii) :
  isExponent x = true -> halts rest ->
  scanNumber false (x ++ rest) = (x, rest).
Proof.
  destruct x as [|m x1]; [discriminate|]. cbn [isExponent].
  intros H Hrest. apply andb_prop in H as [Hm H].
  assert (Hnd : IsDigit m || Ascii.eqb m "." = false).
  { destruct (IsDigit m || Ascii.eqb m ".") eqn:E; [|reflexivity].
    apply digit_not_marker in E. unfold isMarker in E. congruence. }
  cbn [app scanNumber]. rewrite Hnd, Hm. cbn [negb andb].
  destruct x1 as [|sg x2]; [discriminate H|]. cbn [app].
  destruct (Ascii.eqb sg "+" || Ascii.eqb sg "-") eqn:Hsg.
  - destruct x2 as [|c x3]; [discriminate H|].
    apply andb_prop in H as [_ H].
    destruct (dropDigits (c :: x3)) eqn:Hd; [|discriminate H].
    rewrite (halts_exponent_digits _ _ Hd Hrest). reflexivity.
  - apply andb_prop in H as [_ H].
    destruct (dropDigits (sg :: x2)) eqn:Hd; [|discriminate H].
    change (sg :: x2 ++ rest) with ((sg :: x2) ++ rest).
    rewrite (halts_exponent_digits _ _ Hd Hrest). reflexivity.
Qed.

Lemma halts_fraction (s rest : list ascii) :
  match dropDigits s with [] => true | _ :: _ => isExponent (dropDigits s) end
  = true ->
  halts rest -> scanNumber false (s ++ rest) = (s, rest).
Proof.
  intros H Hrest. induction s as [|c s IH].
  - apply scanNumber_halt. assumption.
  - cbn [dropDigits] in H. destruct (IsDigit c) eqn:Hc.
    + cbn [app]. rewrite (scanNumber_digit _ _ _ (IsDigit_point _ Hc)), (IH H).
      reflexivity.
    + apply halts_exponent; assumption.
Qed.

Lemma halts_mantissa (s rest : list ascii) :
  match (match dropDigits s with
         | p :: r => if Ascii.eqb p "." then dropDigits r else dropDigits s
         | [] => []
         end) with
  | [] => true
  | x => isExponent x
  end = true ->
  halts rest -> scanNumber false (s ++ rest) = (s, rest).
Proof.
  intros H Hrest. induction s as [|c s IH].
  - apply scanNumber_halt. assumption.
  - cbn [dropDigits] in H. destruct (IsDigit c) eqn:Hc.
    + cbn [app]. rewrite (scanNumber_digit _ _ _ (IsDigit_point _ Hc)), (IH H).
      reflexivity.
    + destruct (Ascii.eqb c ".") eqn:Hp.
      * cbn [app]. rewrite scanNumber_digit
          by (unfold isPointOrDigit; rewrite Hp; apply orb_true_r).
        rewrite (halts_fraction s rest); [reflexivity | | assumption].
        destruct (dropDigits s); [reflexivity | assumption].
      * apply halts_exponent; assumption.
Qed.

(** A numeral is scanned whole before anything that is no digit, point
    or exponent marker. *)
Lemma halts_numeral (c : ascii) (n rest : list ascii) :
  isNumeral (c :: n) = true -> halts rest ->
  IsDigit c = true /\ scanNumber false (n ++ rest) = (n, rest).
Proof.
  unfold isNumeral. intros H Hrest. apply andb_prop in H as [Hc H].
  split; [assumption|]. cbn [dropDigits] in H. rewrite Hc in H.
  apply halts_mantissa; [|assumption].
  destruct (dropDigits n) as [|p r]; [reflexivity|].
  destruct (Ascii.eqb p "."); [|assumption].
  destruct (dropDigits r); [reflexivity | assumption].
Qed.

Lemma atDelimiter_halts (rest : list ascii) : atDelimiter rest -> halts rest.
Proof.
  destruct rest as [|c rest]; [trivial|].
  intros [[o ->] | [-> | ->]]; [destruct o|..]; split; reflexivity.
Qed.

(** ** The turns of the lexer on the text of a term *)

Lemma lex_numeral (fuel : nat) (n rest : list ascii) (p : tokenType)
    (toks : list token) :
  isNumeral n = true -> atDelimiter rest ->
  tokenizeLoop (S fuel) (n ++ rest) p toks
  = tokenizeLoop fuel rest tNumber
      (toks ++ [Token tNumber (string_of_list_ascii n)]).
Proof.
  intros Hn Hrest. destruct n as [|c n]; [discriminate Hn|].
  destruct (halts_numeral c n rest Hn (atDelimiter_halts _ Hrest))
    as [Hc Hscan].
  cbn [app tokenizeLoop].
  rewrite (plain_not_space c)
    by (apply alphabet_plain; unfold isPointOrDigit; rewrite Hc; reflexivity).
  rewrite Hc, Hscan. reflexivity.
Qed.

Lemma lex_ident (fuel : nat) (name : string) (rest : list ascii)
    (p : tokenType) (toks : list token) :
  inNames name identNames = true -> atDelimiter rest ->
  tokenizeLoop (S fuel) (list_ascii_of_string name ++ rest) p toks
  = tokenizeLoop fuel rest tIdent (toks ++ [Token tIdent name]).
Proof.
  unfold inNames, identNames. cbn [existsb]. intros Hn Hrest.
  repeat match type of Hn with
         | context [String.eqb name ?k] =>
           destruct (String.eqb_spec name k) as [->|_]
         end; try discriminate Hn;
    (destruct rest as [|c rest];
     [reflexivity
     | destruct Hrest as [[o ->] | [-> | ->]];
       [destruct o|..]; reflexivity]).
Qed.

Lemma lex_call (fuel : nat) (f : string) (s : list ascii) (p : tokenType)
    (toks : list token) :
  inNames f unaryNames || inNames f binaryNames = true ->
  tokenizeLoop (S (S fuel)) (list_ascii_of_string f ++ "("%char :: s) p toks
  = tokenizeLoop fuel s tLParen ((toks ++ [Token tFunc f]) ++ [lparen]).
Proof.
  unfold inNames, unaryNames, binaryNames. cbn [existsb]. intros Hn.
  repeat match type of Hn with
         | context [String.eqb f ?k] =>
           destruct (String.eqb_spec f k) as [->|_]
         end; try discriminate Hn; reflexivity.
Qed.

Lemma lex_minus (fuel : nat) (s : list ascii) (p : tokenType)
    (toks : list token) :
  opensSign p toks = true ->
  tokenizeLoop (S fuel) ("-"%char :: s) p toks
  = tokenizeLoop fuel s tOp (toks ++ [Token tOp "u-"]).
Proof.
  unfold opensSign. intros H. cbn [tokenizeLoop]. cbn. rewrite H.
  reflexivity.
Qed.

Lemma lex_plus (fuel : nat) (s : list ascii) (p : tokenType)
    (toks : list token) :
  opensSign p toks = true ->
  tokenizeLoop (S fuel) ("+"%char :: s) p toks
  = tokenizeLoop fuel s tOp (toks ++ [Token tOp "u+"]).
Proof.
  unfold opensSign. intros H. cbn [tokenizeLoop]. cbn. rewrite H.
  reflexivity.
Qed.

Lemma lex_lparen (fuel : nat) (s : list ascii) (p : tokenType)
    (toks : list token) :
  tokenizeLoop (S fuel) ("("%char :: s) p toks
  = tokenizeLoop fuel s tLParen (toks ++ [lparen]).
Proof. reflexivity. Qed.

Lemma lex_rparen (fuel : nat) (s : list ascii) (p : tokenType)
    (toks : list token) :
  tokenizeLoop (S fuel) (")"%char :: s) p toks
  = tokenizeLoop fuel s tRParen (toks ++ [rparen]).
Proof. reflexivity. Qed.

Lemma lex_comma (fuel : nat) (s : list ascii) (p : tokenType)
    (toks : list token) :
  tokenizeLoop (S fuel) (","%char :: s) p toks
  = tokenizeLoop fuel s tComma (toks ++ [comma]).
Proof. reflexivity. Qed.

Lemma lex_binop (fuel : nat) (o : binop) (s : list ascii) (p : tokenType)
    (toks : list token) :
  opensSign p toks = false ->
  tokenizeLoop (S fuel) (symbol o :: s) p toks
  = tokenizeLoop fuel s tOp (toks ++ [opToken o]).
Proof.
  unfold opensSign. intros H. destruct o; cbn [tokenizeLoop symbol];
    cbn; rewrite ?H; reflexivity.
Qed.

Lemma termTokens_length (t : term) : (0 < List.length (termTokens t))%nat.
Proof.
  destruct t; cbn [termTokens List.length]; rewrite ?length_app;
    cbn [List.length]; lia.
Qed.

Lemma after_term (t : term) (toks : list token) :
  opensSign (lastType t) (toks ++ termTokens t) = false.
Proof.
  unfold opensSign.
  assert (Hl : (List.length (toks ++ termTokens t) =? 0)%nat = false).
  { apply Nat.eqb_neq. rewrite length_app.
    pose proof (termTokens_length t). lia. }
  rewrite Hl. clear Hl. induction t; cbn [lastType]; try reflexivity; assumption.
Qed.

Lemma lex_term (t : term) :
  termNamed t = true -> termLexes t = true ->
  forall fuel rest p toks,
  atDelimiter rest ->
  (leadingSign t = true -> opensSign p toks = true) ->
  tokenizeLoop (List.length (termTokens t) + fuel) (termText t ++ rest) p toks
  = tokenizeLoop fuel rest (lastType t) (toks ++ termTokens t).
Proof.
  induction t as [n | name | e IH | e IH | o l IHl r IHr | e IH
                 | f a IHa | f a IHa b IHb];
    cbn [termNamed termLexes]; intros Hn Hl fuel rest p toks Hrest Hsign;
    repeat match goal with
           | H : _ && _ = true |- _ => apply andb_prop in H as [H ?]
           end.
  - apply lex_numeral; assumption.
  - apply lex_ident; assumption.
  - cbn [termTokens termText lastType List.length Nat.add app].
    rewrite lex_minus by (apply Hsign; reflexivity).
    rewrite (IH Hn Hl); [|assumption | reflexivity].
    rewrite <- app_assoc. reflexivity.
  - cbn [termTokens termText lastType List.length Nat.add app].
    rewrite lex_plus by (apply Hsign; reflexivity).
    rewrite (IH Hn Hl); [|assumption | reflexivity].
    rewrite <- app_assoc. reflexivity.
  - cbn [termTokens termText lastType leadingSign] in *.
    rewrite length_app. cbn [List.length].
    rewrite <- !app_assoc. cbn [app]. rewrite <- Nat.add_assoc.
    rewrite (IHl Hn Hl); [|left; eexists; reflexivity | assumption].
    cbn [Nat.add]. rewrite lex_binop by apply after_term.
    rewrite IHr; [|assumption | assumption | assumption | reflexivity].
    rewrite <- !app_assoc. reflexivity.
  - cbn [termTokens termText lastType].
    replace (List.length (lparen :: termTokens e ++ [rparen]) + fuel)%nat
      with (S (List.length (termTokens e) + S fuel))
      by (cbn [List.length]; rewrite length_app; cbn [List.length]; lia).
    cbn [app]. rewrite <- app_assoc. cbn [app].
    rewrite lex_lparen.
    rewrite (IH Hn Hl); [|right; left; reflexivity | reflexivity].
    rewrite lex_rparen. rewrite <- !app_assoc. reflexivity.
  - cbn [termTokens termText lastType].
    replace (List.length (Token tFunc f :: lparen :: termTokens a ++ [rparen])
             + fuel)%nat
      with (S (S (List.length (termTokens a) + S fuel)))
      by (cbn [List.length]; rewrite length_app; cbn [List.length]; lia).
    rewrite <- app_assoc. cbn [app]. rewrite <- app_assoc. cbn [app].
    rewrite lex_call by (rewrite Hn; reflexivity).
    rewrite IHa; [|assumption | assumption | right; left; reflexivity
                  | reflexivity].
    rewrite lex_rparen. rewrite <- !app_assoc. reflexivity.
  - cbn [termTokens termText lastType].
    replace (List.length
               (Token tFunc f :: lparen :: termTokens a
                ++ comma :: termTokens b ++ [rparen]) + fuel)%nat
      with (S (S (List.length (termTokens a)
                  + S (List.length (termTokens b) + S fuel))))
      by (cbn [List.length]; rewrite !length_app; cbn [List.length];
          rewrite length_app; cbn [List.length]; lia).
    rewrite <- app_assoc. cbn [app]. rewrite <- app_assoc. cbn [app].
    rewrite <- app_assoc. cbn [app].
    rewrite lex_call by (rewrite Hn; apply orb_true_r).
    rewrite IHa; [|assumption | assumption | right; right; reflexivity
                  | reflexivity].
    rewrite lex_comma.
    rewrite IHb;
      [ | assumption | assumption | right; left; reflexivity | ].
    + rewrite lex_rparen. rewrite <- !app_assoc. reflexivity.
    + intros Hb. match goal with
                 | H : negb (leadingSign b) = true |- _ =>
                   rewrite Hb in H; discriminate H
                 end.
Qed.

End TermLexer.


Section TermPipeline.

Context {M : GoMath}.

Lemma name_plain (name : string) :
  inNames name identNames || inNames name unaryNames
  || inNames name binaryNames = true ->
  Forall (fun c => plain c = true) (list_ascii_of_string name)
  /\ (0 < List.length (list_ascii_of_string name))%nat.
Proof.
  unfold inNames, identNames, unaryNames, binaryNames. cbn [existsb].
  intros Hn.
  repeat match type of Hn with
         | context [String.eqb name ?k] =>
           let E := fresh "E" in
           destruct (String.eqb name k) eqn:E;
           [apply String.eqb_eq in E; subst name|]
         end; try discriminate Hn;
    (split; [repeat constructor | cbn; lia]).
Qed.

Lemma termText_plain (t : term) :
  termNamed t = true -> termLexes t = true ->
  Forall (fun c => plain c = true) (termText t).
Proof.
  induction t as [n | name | e IH | e IH | o l IHl r IHr | e IH
                 | f a IHa | f a IHa b IHb];
    cbn [termNamed termLexes termText]; intros Hn Hl;
    repeat match goal with
           | H : _ && _ = true |- _ => apply andb_prop in H as [H ?]
           end.
  - apply numeral_plain. assumption.
  - apply name_plain. rewrite Hn. reflexivity.
  - constructor; [reflexivity | auto].
  - constructor; [reflexivity | auto].
  - apply Forall_app. split; [auto|].
    constructor; [destruct o; reflexivity | auto].
  - constructor; [reflexivity|]. apply Forall_app. split; [auto|].
    repeat constructor.
  - apply Forall_app. split.
    + apply name_plain. rewrite Hn, ?orb_true_r. reflexivity.
    + constructor; [reflexivity|]. apply Forall_app. split; [auto|].
      repeat constructor.
  - apply Forall_app. split.
    + apply name_plain. rewrite Hn, ?orb_true_r. reflexivity.
    + constructor; [reflexivity|]. apply Forall_app. split; [auto|].
      constructor; [reflexivity|]. apply Forall_app. split; [auto|].
      repeat constructor.
Qed.

Lemma termText_length (t : term) :
  termNamed t = true -> termLexes t = true ->
  (List.length (termTokens t) <= List.length (termText t))%nat.
Proof.
  induction t as [n | name | e IH | e IH | o l IHl r IHr | e IH
                 | f a IHa | f a IHa b IHb];
    cbn [termNamed termLexes termText termTokens]; intros Hn Hl;
    repeat match goal with
           | H : _ && _ = true |- _ => apply andb_prop in H as [H ?]
           end;
    repeat (rewrite ?length_app; cbn [List.length]).
  - destruct (isNumeral_cons n Hl) as (c & n' & -> & _). cbn. lia.
  - apply name_plain. rewrite Hn. reflexivity.
  - specialize (IH Hn Hl). lia.
  - specialize (IH Hn Hl). lia.
  - specialize (IHl Hn Hl).
    assert ((List.length (termTokens r) <= List.length (termText r))%nat)
      by auto.
    lia.
  - specialize (IH Hn Hl). lia.
  - assert ((List.length (termTokens a) <= List.length (termText a))%nat)
      by auto.
    assert ((0 < List.length (list_ascii_of_string f))%nat)
      by (apply name_plain; rewrite Hn, ?orb_true_r; reflexivity).
    lia.
  - assert ((List.length (termTokens a) <= List.length (termText a))%nat)
      by auto.
    assert ((List.length (termTokens b) <= List.length (termText b))%nat)
      by auto.
    assert ((0 < List.length (list_ascii_of_string f))%nat)
      by (apply name_plain; rewrite Hn, ?orb_true_r; reflexivity).
    lia.
Qed.

Lemma tokenize_term (t : term) :
  termNamed t = true -> termLexes t = true ->
  tokenize (string_of_list_ascii (termText t)) = Ok (termTokens t).
Proof.
  intros Hn Hl. unfold tokenize.
  rewrite list_ascii_of_string_of_list_ascii.
  rewrite (TrimSpace_plain _ (termText_plain t Hn Hl)).
  pose proof (termText_length t Hn Hl) as Hlen.
  replace (List.length (termText t))
    with (List.length (termTokens t)
          + (List.length (termText t) - List.length (termTokens t)))%nat
    by lia.
  rewrite <- (app_nil_r (termText t)) at 2.
  rewrite (lex_term t Hn Hl _ [] tOp [] I (fun _ => eq_refl)).
  destruct (_ - _)%nat; reflexivity.
Qed.

(** The pipeline computes the value of every term of the language written
    without spaces: numerals, [ans], [pi] and [e], signs, the five binary
    operators, parentheses, and calls of the twelve functions with as many
    arguments as they take, a sign binding tighter than every binary
    operator ("-2^2" is the square of -2).  The one restriction is that
    the second argument of [max] or [min] does not start with a sign. *)
Theorem evalExpr_term (t : term) (ans : float) :
  termNamed t = true -> termLexes t = true -> termFits 1 t = true ->
  evalExpr (string_of_list_ascii (termText t)) ans = termValue ans t.
Proof.
  intros Hn Hl Hfit. unfold evalExpr.
  rewrite (tokenize_term t Hn Hl). cbn [bind].
  rewrite (shuntingYard_term t Hn Hfit). cbn [bind].
  apply evalRPN_term. assumption.
Qed.

End TermPipeline.


Section BlankLines.

Context {M : GoMath}.

Lemma spaceLen_blank (a : ascii) (b2 b3 : option Z) :
  isBlank a = true -> spaceLen (code a) b2 b3 = 1%nat.
Proof.
  unfold isBlank, between, spaceLen. intros ->. reflexivity.
Qed.

Lemma trimLeft_blank (s : list ascii) :
  forallb isBlank s = true -> trimLeft s = [].
Proof.
  induction s as [|a s IH]; [reflexivity|]. cbn [forallb]. intros H.
  apply andb_prop in H as [Ha H]. specialize (IH H). cbn [trimLeft].
  destruct s as [|b [|c s]]; rewrite (spaceLen_blank a) by assumption;
    try reflexivity; exact IH.
Qed.

(** A line of ASCII blanks only, the empty line included, has no tokens,
    and [evalExpr] answers the invalid-expression error for it. *)
Theorem evalExpr_blank (input : string) (ans : float) :
  forallb isBlank (list_ascii_of_string input) = true ->
  tokenize input = Ok [] /\ evalExpr input ans = Err ErrInvalidExpr.
Proof.
  intros H.
  assert (Ht : tokenize input = Ok []).
  { unfold tokenize, TrimSpace. rewrite (trimLeft_blank _ H). reflexivity. }
  split; [exact Ht|]. unfold evalExpr. rewrite Ht. reflexivity.
Qed.

End BlankLines.

Section SessionResults.

Context {M : GoMath}.

Variable strings_ToLower : list ascii -> list ascii.

Lemma lastResult_turn (a : float) (outs o : list output) :
  lastResult a (OutPrompt :: outs ++ o) = lastResult (lastResult a outs) o.
Proof.
  cbn [lastResult]. revert a.
  induction outs as [|x outs IH]; intros a; [reflexivity|].
  destruct x; cbn [app lastResult]; apply IH.
Qed.

Lemma lastResult_command (a : float) (line : list ascii) :
  lastResult a [commandOutput strings_ToLower line] = a.
Proof.
  unfold commandOutput.
  repeat match goal with
         | |- context [if ?c then _ else _] => destruct c
         end; reflexivity.
Qed.

(** The session never ends in a panic, and the answer it holds at its end
    is the last result it wrote (the initial one when it wrote none): an
    error, a command or an empty line leaves the answer as it was. *)
Theorem mainLoop_answer (lines : list string) :
  forall lastAns,
  (snd (mainLoop strings_ToLower lines lastAns) = EndOfInput
   \/ snd (mainLoop strings_ToLower lines lastAns) = Quit)
  /\ snd (fst (mainLoop strings_ToLower lines lastAns))
     = lastResult lastAns (fst (fst (mainLoop strings_ToLower lines lastAns))).
Proof.
  induction lines as [|text lines IH]; intros lastAns.
  - cbn. auto.
  - cbn [mainLoop].
    destruct (TrimSpace (list_ascii_of_string text)) as [|c line] eqn:El.
    + specialize (IH lastAns).
      destruct (mainLoop strings_ToLower lines lastAns) as [[o a] e].
      cbn [turn fst snd] in *. rewrite lastResult_turn. exact IH.
    + destruct (isCommand (c :: line)).
      * destruct (isQuit strings_ToLower (c :: line)); [cbn; auto|].
        specialize (IH lastAns).
        destruct (mainLoop strings_ToLower lines lastAns) as [[o a] e].
        cbn [turn fst snd] in *.
        rewrite lastResult_turn, lastResult_command. exact IH.
      * pose proof (evalExpr_no_panic (string_of_list_ascii (c :: line))
                      lastAns) as Hnp.
        destruct (evalExpr (string_of_list_ascii (c :: line)) lastAns)
          as [v|e|]; [| |contradiction].
        -- specialize (IH v).
           destruct (mainLoop strings_ToLower lines v) as [[o a] e].
           cbn [turn fst snd] in *. rewrite lastResult_turn. exact IH.
        -- specialize (IH lastAns).
           destruct (mainLoop strings_ToLower lines lastAns) as [[o a] e'].
           cbn [turn fst snd] in *. rewrite lastResult_turn. exact IH.
Qed.

Lemma turn_append (outs o1 : list output) (a1 : float) (r : list output * float * ending) :
  turn outs (let '(o2, a2, e2) := r in (o1 ++ o2, a2, e2))
  = (let '(o2, a2, e2) := r in ((OutPrompt :: outs ++ o1) ++ o2, a2, e2)).
Proof.
  destruct r as [[o2 a2] e2]. cbn [turn app]. rewrite <- app_assoc.
  reflexivity.
Qed.

(** Lines after a session go on from its answer, and only from it: when
    the first lines end with the end of input, the session on the longer
    input is that session without its last prompt, followed by the session
    on the further lines started from the answer reached; when the first
    lines end with a quit command, the further lines are not read. *)
Theorem mainLoop_append (lines1 lines2 : list string) :
  forall lastAns,
  match mainLoop strings_ToLower lines1 lastAns with
  | (o1, a1, EndOfInput) =>
    exists o1',
      o1 = o1' ++ [OutPrompt]
      /\ mainLoop strings_ToLower (lines1 ++ lines2) lastAns
         = (let '(o2, a2, e2) := mainLoop strings_ToLower lines2 a1 in
            (o1' ++ o2, a2, e2))
  | r => mainLoop strings_ToLower (lines1 ++ lines2) lastAns = r
  end.
Proof.
  induction lines1 as [|text lines1 IH]; intros lastAns.
  - cbn [mainLoop app]. exists [].
    destruct (mainLoop strings_ToLower lines2 lastAns) as [[o2 a2] e2].
    auto.
  - cbn [mainLoop app].
    assert (Hturn : forall outs a,
      match turn outs (mainLoop strings_ToLower lines1 a) with
      | (o1, a1, EndOfInput) =>
        exists o1',
          o1 = o1' ++ [OutPrompt]
          /\ turn outs (mainLoop strings_ToLower (lines1 ++ lines2) a)
             = (let '(o2, a2, e2) := mainLoop strings_ToLower lines2 a1 in
                (o1' ++ o2, a2, e2))
      | r => turn outs (mainLoop strings_ToLower (lines1 ++ lines2) a) = r
      end).
    { intros outs a. specialize (IH a).
      destruct (mainLoop strings_ToLower lines1 a) as [[o1 a1] [| |]];
        cbn [turn].
      - destruct IH as (o1' & -> & IH). exists (OutPrompt :: outs ++ o1').
        split; [cbn [app]; rewrite <- app_assoc; reflexivity|].
        rewrite IH. apply turn_append. exact a1.
      - rewrite IH. reflexivity.
      - rewrite IH. reflexivity. }
    destruct (TrimSpace (list_ascii_of_string text)) as [|c line];
      [apply Hturn|].
    destruct (isCommand (c :: line)).
    + destruct (isQuit strings_ToLower (c :: line)); [reflexivity|].
      apply Hturn.
    + destruct (evalExpr (string_of_list_ascii (c :: line)) lastAns);
        [apply Hturn | apply Hturn | reflexivity].
Qed.

End SessionResults.


(** * Instances

    The theorems above at concrete inputs, with [exactMath] for the
    [math] package. *)

Lemma pipeline_arithmetic_at_example :
  @evalExpr exactMath "1+2*3^2^1-8/4/2" 0%float = Ok 18%float
  /\ @evalExpr exactMath "2^3^2" 0%float = Ok 512%float.
Proof.
  split.
  - change "1+2*3^2^1-8/4/2"%string
      with (string_of_list_ascii (flatText ["1"%char]
              [(Add, ["2"%char]); (Mul, ["3"%char]); (Pow, ["2"%char]);
               (Pow, ["1"%char]); (Sub, ["8"%char]); (Div, ["4"%char]);
               (Div, ["2"%char])])).
    destruct (proj1 (proj2 (@pipeline_arithmetic exactMath)) ["1"%char]
                [(Add, ["2"%char]); (Mul, ["3"%char]); (Pow, ["2"%char]);
                 (Pow, ["1"%char]); (Sub, ["8"%char]); (Div, ["4"%char]);
                 (Div, ["2"%char])] eq_refl eq_refl) as (Hfit & Hnum & <-).
    rewrite (proj1 (@pipeline_arithmetic exactMath) _ 0%float Hfit Hnum).
    vm_compute. reflexivity.
  - apply (proj2 (proj2 (proj2 (proj2 (@pipeline_arithmetic exactMath))))
             0%float); reflexivity.
Defined.


Lemma evalRPN_terminal_stack_at_example :
  @evalRPN exactMath [Token tNumber "1"; Token tNumber "2"] 0%float
  = Err ErrInvalidExpr.
Proof.
  apply (proj1 (proj2 (@evalRPN_terminal_stack exactMath
                         [Token tNumber "1"; Token tNumber "2"] 0%float))
           [2%float; 1%float]).
  - vm_compute. reflexivity.
  - cbn. lia.
Defined.

Lemma division_by_zero_at_example :
  @evalRPN exactMath
    [Token tNumber "7"; Token tNumber "0"; Token tOp "u-"; Token tOp "/";
     Token tNumber "1"; Token tOp "+"] 0%float
  = Err ErrDivZero.
Proof.
  apply (proj1 (@division_by_zero exactMath 0%float)
           [Token tNumber "7"; Token tNumber "0"; Token tOp "u-"]
           [Token tNumber "1"; Token tOp "+"] 7%float (-0)%float []).
  - vm_compute. reflexivity.
  - vm_compute. reflexivity.
Defined.

Lemma sqrt_of_negative_at_example :
  @evalRPN exactMath
    [Token tNumber "2"; Token tNumber "3"; Token tOp "-"; Token tFunc "sqrt"]
    0%float
  = Err ErrSqrtNegative.
Proof.
  apply (proj1 (@sqrt_of_negative exactMath 0%float)
           [Token tNumber "2"; Token tNumber "3"; Token tOp "-"] []
           (-1)%float []).
  - vm_compute. reflexivity.
  - vm_compute. reflexivity.
Defined.

Lemma too_few_arguments_at_example :
  @evalStep exactMath 0%float (Token tFunc "min") [4%float]
  = Err (ErrFuncFewArgs "min").
Proof.
  apply (proj1 (@too_few_arguments exactMath 0%float) "min"%string [4%float]).
  cbn. lia.
Defined.

Lemma log_of_negative_at_example :
  (exists v, @evalExpr exactMath "ln(-1)" 0%float = Ok v /\ is_nan v = true)
  /\ (exists v, @evalExpr exactMath "log(-1)" 0%float = Ok v /\ is_nan v = true).
Proof.
  destruct (@log_of_negative exactMath eq_refl eq_refl 0%float)
    as (H1 & H2 & _).
  split; assumption.
Defined.

Lemma number_payloads_at_example :
  numberShape "1.2.3" = true
  /\ @evalRPN exactMath [Token tNumber "4"; Token tNumber "1.2.3"] 0%float
     = Err (ErrParseFloat "1.2.3" ErrSyntax).
Proof.
  split.
  - apply (proj1 (@number_payloads exactMath) " 1.2.3+4"%string
             [Token tNumber "1.2.3"; Token tOp "+"; Token tNumber "4"]
             (Token tNumber "1.2.3")).
    + vm_compute. reflexivity.
    + left. reflexivity.
    + reflexivity.
  - apply (proj2 (@number_payloads exactMath) 0%float [Token tNumber "4"] []
             (Token tNumber "1.2.3") [4%float]).
    + vm_compute. reflexivity.
    + reflexivity.
    + vm_compute. reflexivity.
Defined.

(** The lexer accepts "1.2.3" and "1e999" and makes each one Number token;
    [strconv.ParseFloat] refuses both payloads, the first for its syntax
    and the second for its range, and the evaluation returns that error. *)
Lemma number_payload_unparsable :
  @tokenize exactMath "1.2.3" = Ok [Token tNumber "1.2.3"]
  /\ ParseFloat "1.2.3" = Err (ErrParseFloat "1.2.3" ErrSyntax)
  /\ @evalExpr exactMath "1.2.3" 0%float
     = Err (ErrParseFloat "1.2.3" ErrSyntax)
  /\ @tokenize exactMath "1e999" = Ok [Token tNumber "1e999"]
  /\ @evalExpr exactMath "1e999" 0%float
     = Err (ErrParseFloat "1e999" ErrRange).
Proof.
  repeat split; vm_compute; reflexivity.
Qed.

Lemma tokenize_tokens_ok_at_example :
  forallb (@tokenOk exactMath)
    [Token tFunc "max"; Token tLParen "("; Token tNumber "1.5e3";
     Token tComma ","; Token tIdent "pi"; Token tRParen ")"; Token tOp "*";
     Token tOp "u-"; Token tIdent "ans"] = true.
Proof.
  apply (@tokenize_tokens_ok exactMath " MAX(1.5e3, Pi) * -Ans "%string).
  vm_compute. reflexivity.
Defined.

Lemma tokenize_spells_input_at_example :
  map lowerByte
    (flat_map tokenSource
       [Token tFunc "max"; Token tLParen "("; Token tNumber "1.5E3";
        Token tComma ","; Token tIdent "pi"; Token tRParen ")"; Token tOp "*";
        Token tOp "u-"; Token tIdent "ans"])
  = map lowerByte
      (filter notSpace
         (TrimSpace (list_ascii_of_string " MAX(1.5E3, Pi) * -Ans "))).
Proof.
  apply (@tokenize_spells_input exactMath " MAX(1.5E3, Pi) * -Ans "%string).
  vm_compute. reflexivity.
Defined.

Lemma tokenize_error_at_example :
  @tokenize exactMath "2 + Foo1(3)" = Err (ErrUnknownIdent "Foo1")
  /\ exists pre s,
       TrimSpace (list_ascii_of_string "2 + Foo1(3)") = pre ++ s
       /\ @lexed exactMath s pre
       /\ @lexError exactMath s (ErrUnknownIdent "Foo1").
Proof.
  assert (H : @tokenize exactMath "2 + Foo1(3)"
              = Err (ErrUnknownIdent "Foo1")).
  { apply (proj2 (@tokenize_error exactMath "2 + Foo1(3)"%string
                    (ErrUnknownIdent "Foo1"))).
    exists (list_ascii_of_string "2 + "), (list_ascii_of_string "Foo1(3)").
    split; [vm_compute; reflexivity|]. split.
    - apply (lexed_token _ ["2"%char] [" "%char; "+"%char; " "%char]).
      { left. split; reflexivity. }
      apply lexed_space; [reflexivity|].
      apply (lexed_token _ ["+"%char] [" "%char]).
      { right. left. split; reflexivity. }
      apply lexed_space; [reflexivity|]. apply lexed_nil.
    - right. exists "F"%char, (list_ascii_of_string "oo1"),
        (list_ascii_of_string "(3)").
      repeat split; vm_compute; reflexivity. }
  split; [exact H|].
  apply (proj1 (@tokenize_error exactMath "2 + Foo1(3)"%string
                  (ErrUnknownIdent "Foo1"))).
  exact H.
Defined.

Lemma evalExpr_blank_at_example :
  @tokenize exactMath "   " = Ok []
  /\ @evalExpr exactMath "   " 7%float = Err ErrInvalidExpr.
Proof.
  apply (@evalExpr_blank exactMath "   "%string 7%float). reflexivity.
Defined.

Lemma shuntingYard_keeps_at_example :
  Permutation
    [Token tNumber "1"; Token tNumber "2"; Token tIdent "pi"; Token tOp "*";
     Token tFunc "max"; Token tOp "+"]
    (filter keeps
       [Token tNumber "1"; Token tOp "+"; Token tFunc "max";
        Token tLParen "("; Token tNumber "2"; Token tOp "*";
        Token tIdent "pi"; Token tRParen ")"])
  /\ filter isOperand
       [Token tNumber "1"; Token tNumber "2"; Token tIdent "pi";
        Token tOp "*"; Token tFunc "max"; Token tOp "+"]
     = filter isOperand
         [Token tNumber "1"; Token tOp "+"; Token tFunc "max";
          Token tLParen "("; Token tNumber "2"; Token tOp "*";
          Token tIdent "pi"; Token tRParen ")"].
Proof.
  apply (@shuntingYard_keeps exactMath). vm_compute. reflexivity.
Defined.

Lemma shuntingYard_accepts_at_example :
  (out <- @shuntingYard exactMath
            [Token tNumber "1"; Token tComma ","; Token tNumber "2"] ;; Ok tt)
  = Err ErrCommaOutside.
Proof.
  rewrite (@shuntingYard_accepts exactMath
             [Token tNumber "1"; Token tComma ","; Token tNumber "2"]).
  - reflexivity.
  - intros t [<- | [<- | [<- | []]]]; discriminate.
Defined.

Lemma evalRPN_balance_at_example :
  @netSum exactMath
    [Token tNumber "3"; Token tNumber "9"; Token tOp "u-"; Token tFunc "max";
     Token tNumber "2"; Token tOp "*"; Token tFunc "abs"] = 1.
Proof.
  apply (@evalRPN_balance exactMath _ 0%float 6%float).
  vm_compute. reflexivity.
Defined.

Lemma evalExpr_without_ans_at_example :
  @evalExpr exactMath "2*(3+4)/0" 1%float
  = @evalExpr exactMath "2*(3+4)/0" 2%float.
Proof.
  apply (@evalExpr_without_ans exactMath "2*(3+4)/0"%string
           [Token tNumber "2"; Token tOp "*"; Token tLParen "(";
            Token tNumber "3"; Token tOp "+"; Token tNumber "4";
            Token tRParen ")"; Token tOp "/"; Token tNumber "0"]).
  - vm_compute. reflexivity.
  - reflexivity.
Defined.

Lemma tokens_of_term_at_example :
  @shuntingYard exactMath
    [Token tFunc "min"; Token tLParen "("; Token tNumber "4"; Token tComma ",";
     Token tOp "u-"; Token tNumber "2"; Token tRParen ")"]
  = Ok [Token tNumber "4"; Token tNumber "2"; Token tOp "u-";
        Token tFunc "min"]
  /\ @evalRPN exactMath
       [Token tNumber "4"; Token tNumber "2"; Token tOp "u-";
        Token tFunc "min"] 0%float
     = Ok (-2)%float.
Proof.
  destruct (@tokens_of_term exactMath
              (TCall2 "min" (TNum ["4"%char]) (TNeg (TNum ["2"%char])))
              0%float eq_refl eq_refl) as [Hs He].
  split; [exact Hs|].
  eapply eq_trans; [exact He | vm_compute; reflexivity].
Defined.

Lemma evalExpr_term_at_example :
  @evalExpr exactMath "-2^2+max(3,abs(-9))*(1+ans)" 2%float = Ok 31%float.
Proof.
  pose (t := TBin Add
               (TBin Pow (TNeg (TNum ["2"%char])) (TNum ["2"%char]))
               (TBin Mul
                  (TCall2 "max" (TNum ["3"%char])
                     (TCall1 "abs" (TNeg (TNum ["9"%char]))))
                  (TParen (TBin Add (TNum ["1"%char]) (TId "ans"))))).
  change "-2^2+max(3,abs(-9))*(1+ans)"%string
    with (string_of_list_ascii (termText t)).
  rewrite (@evalExpr_term exactMath t 2%float eq_refl eq_refl eq_refl).
  vm_compute. reflexivity.
Defined.
